(** * Hashed n-gram feature augmentation (tutorial_imdb_fasttext.py)

    A shallow embedding of [augment_with_ngrams] and of the library calls it
    makes ([array.array('L', _).tobytes()], [hashlib.sha256(_).hexdigest()],
    [int(_, 16)], [zip], slicing, [range]), followed by the properties of the
    augmenter. *)

From Stdlib Require Import ZArith List Lia Bool String Ascii Permutation.
From Stdlib Require Import Strings.Byte.
Import ListNotations.
Local Open Scope Z_scope.

(** ** Bytes *)

Definition Z_of_byte (b : byte) : Z := Z.of_N (Byte.to_N b).

Definition byte_of_Z (z : Z) : byte :=
  match Byte.of_N (Z.to_N (z mod 256)) with
  | Some b => b
  | None => x00
  end.

(** ** SHA-256 (FIPS 180-4), the function behind [hashlib.sha256] *)

Module SHA256.

Definition wrap32 (x : Z) : Z := x mod 2 ^ 32.
Definition add32 (x y : Z) : Z := wrap32 (x + y).

Definition rotr (n x : Z) : Z :=
  Z.lor (Z.shiftr x n) (wrap32 (Z.shiftl x (32 - n))).
Definition shr (n x : Z) : Z := Z.shiftr x n.
Definition not32 (x : Z) : Z := Z.lxor x (2 ^ 32 - 1).

Definition Ch (x y z : Z) : Z := Z.lxor (Z.land x y) (Z.land (not32 x) z).
Definition Maj (x y z : Z) : Z :=
  Z.lxor (Z.lxor (Z.land x y) (Z.land x z)) (Z.land y z).
Definition bsig0 (x : Z) : Z := Z.lxor (Z.lxor (rotr 2 x) (rotr 13 x)) (rotr 22 x).
Definition bsig1 (x : Z) : Z := Z.lxor (Z.lxor (rotr 6 x) (rotr 11 x)) (rotr 25 x).
Definition ssig0 (x : Z) : Z := Z.lxor (Z.lxor (rotr 7 x) (rotr 18 x)) (shr 3 x).
Definition ssig1 (x : Z) : Z := Z.lxor (Z.lxor (rotr 17 x) (rotr 19 x)) (shr 10 x).

(** The round constants are the first 32 bits of the fractional parts of
    the cube roots of the first 64 primes, the initial hash value those of
    the square roots of the first 8 primes; both are derived here rather
    than tabulated. *)
Definition is_prime (n : Z) : bool :=
  forallb (fun d => negb (n mod Z.of_nat d =? 0)) (seq 2 (Z.to_nat n - 2)).

Definition primes_below (n : nat) : list Z :=
  filter is_prime (map Z.of_nat (seq 2 (n - 2))).

Fixpoint cbrt_bits (k : nat) (n r : Z) : Z :=
  match k with
  | O => r
  | S k' =>
      let c := r + 2 ^ Z.of_nat k' in
      cbrt_bits k' n (if c * c * c <=? n then c else r)
  end.

Definition frac_cbrt32 (p : Z) : Z := wrap32 (cbrt_bits 40 (p * 2 ^ 96) 0).
Definition frac_sqrt32 (p : Z) : Z := wrap32 (Z.sqrt (p * 2 ^ 64)).

Definition K256 : list Z :=
  Eval vm_compute in map frac_cbrt32 (primes_below 312).

Definition H256 : list Z :=
  Eval vm_compute in map frac_sqrt32 (primes_below 20).

(** Big-endian words. *)
Fixpoint be_bytes (k : nat) (v : Z) : list byte :=
  match k with
  | O => []
  | S k' => byte_of_Z (Z.shiftr v (8 * Z.of_nat k')) :: be_bytes k' v
  end.

Definition be_value (bs : list byte) : Z :=
  fold_left (fun acc b => acc * 256 + Z_of_byte b) bs 0.

(** Padding (5.1.1): a 1 bit, zero bits up to 56 mod 64 bytes, then the
    message length in bits as a 64-bit big-endian integer. *)
Definition pad (msg : list byte) : list byte :=
  let len := Z.of_nat (List.length msg) in
  msg ++ [x80] ++ repeat x00 (Z.to_nat ((55 - len) mod 64))
      ++ be_bytes 8 (8 * len).

(** Parsing (5.2.1): 32-bit big-endian words, 16 to a block. *)
Fixpoint chunks {A} (fuel size : nat) (l : list A) : list (list A) :=
  match fuel with
  | O => []
  | S fuel' =>
      match l with
      | [] => []
      | _ => firstn size l :: chunks fuel' size (skipn size l)
      end
  end.

Definition words_of (bs : list byte) : list Z :=
  map be_value (chunks (List.length bs) 4 bs).

Definition blocks_of (bs : list byte) : list (list Z) :=
  let ws := words_of bs in chunks (List.length ws) 16 ws.

(** Message schedule (6.2.2 step 1); [rev_ws] holds W(t-1), W(t-2), ... *)
Fixpoint extend (n : nat) (rev_ws : list Z) : list Z :=
  match n with
  | O => rev_ws
  | S n' =>
      let w := add32 (add32 (ssig1 (nth 1 rev_ws 0)) (nth 6 rev_ws 0))
                     (add32 (ssig0 (nth 14 rev_ws 0)) (nth 15 rev_ws 0)) in
      extend n' (w :: rev_ws)
  end.

Definition schedule (block : list Z) : list Z := rev (extend 48 (rev block)).

Record regs : Type := Regs {
  ra : Z; rb : Z; rc : Z; rd : Z; re : Z; rf : Z; rg : Z; rh : Z
}.

(** One round (6.2.2 step 3). *)
Definition round (s : regs) (kw : Z * Z) : regs :=
  let t1 := add32 (add32 (add32 (add32 (rh s) (bsig1 (re s)))
                                (Ch (re s) (rf s) (rg s))) (fst kw)) (snd kw) in
  let t2 := add32 (bsig0 (ra s)) (Maj (ra s) (rb s) (rc s)) in
  Regs (add32 t1 t2) (ra s) (rb s) (rc s) (add32 (rd s) t1) (re s) (rf s) (rg s).

Definition compress (h : regs) (block : list Z) : regs :=
  let s := fold_left round (combine K256 (schedule block)) h in
  Regs (add32 (ra h) (ra s)) (add32 (rb h) (rb s))
       (add32 (rc h) (rc s)) (add32 (rd h) (rd s))
       (add32 (re h) (re s)) (add32 (rf h) (rf s))
       (add32 (rg h) (rg s)) (add32 (rh h) (rh s)).

Definition init : regs :=
  Regs (nth 0 H256 0) (nth 1 H256 0) (nth 2 H256 0) (nth 3 H256 0)
       (nth 4 H256 0) (nth 5 H256 0) (nth 6 H256 0) (nth 7 H256 0).

Definition output (s : regs) : list byte :=
  be_bytes 4 (ra s) ++ be_bytes 4 (rb s) ++ be_bytes 4 (rc s)
    ++ be_bytes 4 (rd s) ++ be_bytes 4 (re s) ++ be_bytes 4 (rf s)
    ++ be_bytes 4 (rg s) ++ be_bytes 4 (rh s).

Definition digest (msg : list byte) : list byte :=
  output (fold_left compress (blocks_of (pad msg)) init).

End SHA256.

(** ** Python values and exceptions *)

(** The exceptions the augmenter's body can raise. *)
Inductive exn : Type :=
| OverflowError      (* array.array('L', _): item outside unsigned long *)
| ZeroDivisionError  (* _ % 0 *)
| ValueError.        (* int(_, 16) on a string that is not a numeral *)

Inductive result (A : Type) : Type :=
| Ok (a : A)
| Raise (e : exn).
Arguments Ok {A} a.
Arguments Raise {A} e.

Definition bind {A B} (r : result A) (k : A -> result B) : result B :=
  match r with
  | Ok a => k a
  | Raise e => Raise e
  end.

Notation "x <- r ;; k" := (bind r (fun x => k))
  (at level 61, r at next level, right associativity).

(** A list comprehension whose element expression may raise: elements are
    evaluated left to right and the first exception aborts the whole list. *)
Fixpoint mapM {A B} (f : A -> result B) (l : list A) : result (list B) :=
  match l with
  | [] => Ok []
  | x :: l' => y <- f x ;; ys <- mapM f l' ;; Ok (y :: ys)
  end.

(** [range(lo, hi)]. *)
Definition range (lo hi : Z) : list Z :=
  map (fun k => lo + Z.of_nat k) (seq 0 (Z.to_nat (hi - lo))).

(** [l[i:]], negative [i] counting from the end. *)
Definition slice_from {A} (l : list A) (i : Z) : list A :=
  let len := Z.of_nat (List.length l) in
  skipn (Z.to_nat (if i <? 0 then Z.max 0 (len + i) else i)) l.

(** [zip(a, b)] followed by consing the pair's components. *)
Definition zip_cons {A} (l : list A) (ts : list (list A)) : list (list A) :=
  map (fun xt => fst xt :: snd xt) (combine l ts).

(** [list(zip( *ls ))]: the k-th tuple holds the k-th element of every list,
    up to the length of the shortest; no list at all gives no tuple. *)
Fixpoint zip_star {A} (ls : list (list A)) : list (list A) :=
  match ls with
  | [] => []
  | l :: ls' =>
      match ls' with
      | [] => map (fun x => [x]) l
      | _ :: _ => zip_cons l (zip_star ls')
      end
  end.

(** [a % b] on Python integers: floored, the sign of the divisor. *)
Definition py_mod (a b : Z) : result Z :=
  if b =? 0 then Raise ZeroDivisionError else Ok (a mod b).

(** ** The platform: C [unsigned long] and byte order

    Typecode ['L'] of the [array] module is C [unsigned long]: 8 bytes on
    LP64 platforms (Linux, macOS), 4 bytes on LLP64 and 32-bit ones, and
    [tobytes] gives the machine representation, so in native byte order. *)

Inductive ulong_width : Type := Long32 | Long64.
Inductive byteorder : Type := LittleEndian | BigEndian.

Record platform : Type := Platform {
  ulong : ulong_width;
  order : byteorder
}.

Definition lp64 : platform := Platform Long64 LittleEndian.
Definition llp64 : platform := Platform Long32 LittleEndian.

Definition itemsize (p : platform) : nat :=
  match ulong p with
  | Long32 => 4
  | Long64 => 8
  end.

Definition ULONG_MAX (p : platform) : Z := 2 ^ (8 * Z.of_nat (itemsize p)) - 1.

(** [PyLong_AsUnsignedLong]: negative and too large integers overflow. *)
Definition fits_ulong (p : platform) (v : Z) : bool :=
  (0 <=? v) && (v <=? ULONG_MAX p).

Definition as_unsigned_long (p : platform) (v : Z) : result Z :=
  if fits_ulong p v then Ok v else Raise OverflowError.

(** [array.array('L', items)]. *)
Definition array_L (p : platform) (items : list Z) : result (list Z) :=
  mapM (as_unsigned_long p) items.

Fixpoint le_bytes (k : nat) (v : Z) : list byte :=
  match k with
  | O => []
  | S k' => byte_of_Z v :: le_bytes k' (Z.shiftr v 8)
  end.

Definition item_bytes (p : platform) (v : Z) : list byte :=
  match order p with
  | LittleEndian => le_bytes (itemsize p) v
  | BigEndian => rev (le_bytes (itemsize p) v)
  end.

(** [a.tobytes()]. *)
Definition tobytes (p : platform) (a : list Z) : list byte :=
  flat_map (item_bytes p) a.

(** ** [hexdigest] and [int(_, 16)] *)

Definition hex_digit (n : Z) : ascii :=
  nth (Z.to_nat n) (list_ascii_of_string "0123456789abcdef") "0"%char.

Definition hex_of_byte (b : byte) : string :=
  String (hex_digit (Z_of_byte b / 16))
    (String (hex_digit (Z_of_byte b mod 16)) EmptyString).

Definition hexdigest (d : list byte) : string :=
  fold_right (fun b s => (hex_of_byte b ++ s)%string) EmptyString d.

Definition digit_value (c : ascii) : option Z :=
  let n := Z.of_nat (nat_of_ascii c) in
  if (48 <=? n) && (n <=? 57) then Some (n - 48)
  else if (97 <=? n) && (n <=? 102) then Some (n - 87)
  else if (65 <=? n) && (n <=? 70) then Some (n - 55)
  else None.

Fixpoint int16_digits (s : string) (acc : Z) : result Z :=
  match s with
  | EmptyString => Ok acc
  | String c s' =>
      match digit_value c with
      | Some d => int16_digits s' (acc * 16 + d)
      | None => Raise ValueError
      end
  end.

(** [int(s, 16)] on a string of hexadecimal digits.  Python also reads a
    sign, surrounding blanks, a [0x] prefix and underscores; [hexdigest]
    produces none of them, and this model raises on them. *)
Definition int_base16 (s : string) : result Z :=
  match s with
  | EmptyString => Raise ValueError
  | String _ _ => int16_digits s 0
  end.

(** ** The augmenter *)

Section Augmenter.

Variable p : platform.
(** The arguments the two inner functions close over. *)
Variable unigrams : list Z.
Variable unigram_vocab_size : Z.
Variable n_buckets : Z.

(** [list(zip( *[unigrams[i:] for i in range(n)]))] *)
Definition get_ngrams (n : Z) : list (list Z) :=
  zip_star (map (slice_from unigrams) (range 0 n)).

Definition hash_ngram (ngram : list Z) : result Z :=
  a <- array_L p ngram ;;
  let bytes_ := tobytes p a in
  hash_ <- int_base16 (hexdigest (SHA256.digest bytes_)) ;;
  m <- py_mod hash_ n_buckets ;;
  Ok (unigram_vocab_size + m).

(** [unigrams + [hash_ngram(ngram) for i in range(2, n + 1)
                                   for ngram in get_ngrams(i)]] *)
Definition augment_with_ngrams (n : Z) : result (list Z) :=
  hashed <- mapM hash_ngram (flat_map get_ngrams (range 2 (n + 1))) ;;
  Ok (unigrams ++ hashed).

End Augmenter.

(** ** Reference definitions, in the words of the specification *)

(** The window of length [n] that starts at position [j]. *)
Definition window (seq : list Z) (n j : nat) : list Z := firstn n (skipn j seq).

(** All windows of length [n], by start position; there are
    [max 0 (len - n + 1)] of them. *)
Definition windows (seq : list Z) (n : nat) : list (list Z) :=
  map (window seq n) (List.seq 0 (List.length seq + 1 - n)).

(** Fixed-width serialisation, SHA-256, the digest as an unsigned integer,
    modulo the bucket count, shifted past the vocabulary. *)
Definition spec_feature_id (p : platform) (V B : Z) (w : list Z) : Z :=
  V + SHA256.be_value (SHA256.digest (List.concat (map (item_bytes p) w))) mod B.

(** The hashed features, by n ascending and then by start position. *)
Definition ordered_features (p : platform) (seq : list Z) (V B N : Z) : list Z :=
  List.concat (map (fun n => map (spec_feature_id p V B) (windows seq (Z.to_nat n)))
              (range 2 (N + 1))).

Definition window_count (len n : Z) : Z := Z.max 0 (len - n + 1).

Definition sum_Z (l : list Z) : Z := fold_right Z.add 0 l.

(** Where the feature of the window of length [n] at start [j] stands in the
    output: after the sequence and after every window shorter than [n]. *)
Definition feature_index (len n j : Z) : Z :=
  len + sum_Z (map (window_count len) (range 2 n)) + j.

(** Two elements next to each other in a list. *)
Definition adjacent {A} (a b : A) (l : list A) : Prop :=
  exists l1 l2, l = l1 ++ a :: b :: l2.

(** Reading a little-endian byte string back. *)
Fixpoint le_value (bs : list byte) : Z :=
  match bs with
  | [] => 0
  | b :: bs' => Z_of_byte b + 256 * le_value bs'
  end.

(** The input contract: tokens are non-negative and within the range of
    the array item type the source serialises them to, the vocabulary size
    and bucket count are positive, the order is at least 1. *)
Definition valid_input (p : platform) (seq : list Z) (V B N : Z) : bool :=
  forallb (fits_ulong p) seq && (0 <? V) && (0 <? B) && (1 <=? N).

(** ** The preprocessing step and the module constants it uses *)

Definition N_GRAM : Z := 2.
Definition VOCAB_SIZE : Z := 100000.
Definition N_BUCKETS : Z := 1000000.

(** What [tl.files.load_imdb_dataset] returns: token sequences and labels
    for training and for testing.  The loader is a library function; its
    result is an argument here. *)
Record imdb : Type := Imdb {
  X_train : list (list Z);
  y_train : list Z;
  X_test : list (list Z);
  y_test : list Z
}.

(** The feature arrays the preprocessing step returns: the loader's own
    when no order is given, and what [np.array] built otherwise. *)
Inductive features (ndarray : Type) : Type :=
| AsLoaded (rows : list (list Z))
| AsArray (a : ndarray).
Arguments AsLoaded {ndarray} rows.
Arguments AsArray {ndarray} a.

Record preprocessed (ndarray : Type) : Type := Preprocessed {
  pre_X_train : features ndarray;
  pre_y_train : list Z;
  pre_X_test : features ndarray;
  pre_y_test : list Z
}.
Arguments Preprocessed {ndarray}.
Arguments pre_X_train {ndarray}.
Arguments pre_y_train {ndarray}.
Arguments pre_X_test {ndarray}.
Arguments pre_y_test {ndarray}.

(** Where an exception of the preprocessing step comes from: the hashing
    in a comprehension, or [np.array]. *)
Inductive raised (np_error : Type) : Type :=
| Hashing (e : exn)
| Numpy (e : np_error).
Arguments Hashing {np_error} e.
Arguments Numpy {np_error} e.

Section Preprocessing.

Variable p : platform.

(** [np.array] on a list of sequences is a library call whose result, and
    whether it raises (on rows of different lengths, say), depends on the
    NumPy version: it is a parameter, with the arrays it returns and the
    exceptions it raises. *)
Variable ndarray : Type.
Variable np_error : Type.
Variable np_array : list (list Z) -> ndarray + np_error.

(** [load_and_preprocess_imdb_data(n_gram)], with [loaded] the loader's
    result and [None] for the default [n_gram=None].  The statements run in
    the order of the source: the training comprehension, [np.array] on its
    result, the test comprehension, [np.array] on its result.  The logging
    call is left out. *)
Definition load_and_preprocess_imdb_data (loaded : imdb) (n_gram : option Z)
    : preprocessed ndarray + raised np_error :=
  match n_gram with
  | None =>
      inl (Preprocessed (AsLoaded (X_train loaded)) (y_train loaded)
                        (AsLoaded (X_test loaded)) (y_test loaded))
  | Some n =>
      match mapM (fun x => augment_with_ngrams p x VOCAB_SIZE N_BUCKETS n)
                 (X_train loaded) with
      | Raise e => inr (Hashing e)
      | Ok xs_train =>
          match np_array xs_train with
          | inr e => inr (Numpy e)
          | inl a_train =>
              match mapM (fun x => augment_with_ngrams p x VOCAB_SIZE N_BUCKETS n)
                         (X_test loaded) with
              | Raise e => inr (Hashing e)
              | Ok xs_test =>
                  match np_array xs_test with
                  | inr e => inr (Numpy e)
                  | inl a_test =>
                      inl (Preprocessed (AsArray a_train) (y_train loaded)
                                        (AsArray a_test) (y_test loaded))
                  end
              end
          end
      end
  end.

End Preprocessing.

Arguments load_and_preprocess_imdb_data p {ndarray np_error} np_array loaded n_gram.

(** [vocab_size=VOCAB_SIZE + N_BUCKETS], the size of the embedding table
    that [train_test_and_save_model] gives the classifier. *)
Definition classifier_vocab_size : Z := VOCAB_SIZE + N_BUCKETS.

(** The examples on which the augmenter raises when the bucket count is not
    zero: at least one n-gram is hashed and some token overflows. *)
Definition overflows (p : platform) (n : Z) (x : list Z) : bool :=
  (2 <=? n) && (2 <=? Z.of_nat (List.length x))
  && negb (forallb (fits_ulong p) x).

(** * Properties *)

(** ** The models of the library calls, run on known values *)

Example K256_table :
  List.length SHA256.K256 = 64%nat /\
  nth 0 SHA256.K256 0 = 0x428a2f98 /\ nth 63 SHA256.K256 0 = 0xc67178f2 /\
  SHA256.ra SHA256.init = 0x6a09e667 /\ SHA256.rh SHA256.init = 0x5be0cd19.
Proof. repeat split. Qed.

Example sha256_empty :
  hexdigest (SHA256.digest [])
  = "e3b0c44298fc1c149afbf4c8996fb92427ae41e4649b934ca495991b7852b855"%string.
Proof. vm_compute. reflexivity. Qed.

Example sha256_abc :
  hexdigest (SHA256.digest (list_byte_of_string "abc"))
  = "ba7816bf8f01cfea414140de5dae2223b00361a396177a9cb410ff61f20015ad"%string.
Proof. vm_compute. reflexivity. Qed.

Example sha256_two_blocks :
  hexdigest (SHA256.digest (list_byte_of_string
    "abcdbcdecdefdefgefghfghighijhijkijkljklmklmnlmnomnopnopq"))
  = "248d6a61d20638b8e5c026930c3e6039a33ce45964ff2167f6ecedd419db06c1"%string.
Proof. vm_compute. reflexivity. Qed.

Example tobytes_lp64 :
  tobytes lp64 [1; 258]
  = [x01; x00; x00; x00; x00; x00; x00; x00; x02; x01; x00; x00; x00; x00; x00; x00].
Proof. reflexivity. Qed.

Example tobytes_llp64 :
  tobytes llp64 [1; 258] = [x01; x00; x00; x00; x02; x01; x00; x00].
Proof. reflexivity. Qed.

Example array_L_rejects :
  array_L lp64 [1; -1] = Raise OverflowError /\
  array_L lp64 [2 ^ 64] = Raise OverflowError /\
  array_L lp64 [2 ^ 64 - 1] = Ok [2 ^ 64 - 1] /\
  array_L llp64 [2 ^ 32] = Raise OverflowError.
Proof. repeat split. Qed.

Example get_ngrams_samples :
  get_ngrams [1; 2; 3; 4] 2 = [[1; 2]; [2; 3]; [3; 4]] /\
  get_ngrams [1; 2; 3; 4] 3 = [[1; 2; 3]; [2; 3; 4]] /\
  get_ngrams [1; 2; 3; 4] 5 = [] /\
  get_ngrams [1; 2; 3; 4] 0 = [].
Proof. repeat split. Qed.

Example hash_ngram_sample :
  hexdigest (SHA256.digest (tobytes lp64 [1; 2]))
  = "0c730b69905c5ef7a4ca5269f72365400bde2dd2c04eaf9bbb3d1c4a265a0131"%string /\
  hash_ngram lp64 10 100 [1; 2] = Ok 31.
Proof. split; vm_compute; reflexivity. Qed.

(** The example of the specification: [1, 2, 3] with a vocabulary of 10,
    100 buckets and order 2. *)
Example augment_sample :
  augment_with_ngrams lp64 [1; 2; 3] 10 100 2 = Ok [1; 2; 3; 31; 11].
Proof. vm_compute. reflexivity. Qed.

Example augment_raises :
  augment_with_ngrams lp64 [1; -1] 10 0 2 = Raise OverflowError /\
  augment_with_ngrams lp64 [1; 2; -1] 10 0 2 = Raise ZeroDivisionError /\
  augment_with_ngrams lp64 [1; 2; -1] 10 100 2 = Raise OverflowError /\
  augment_with_ngrams lp64 [2 ^ 64; 0] 10 100 2 = Raise OverflowError.
Proof. repeat split; vm_compute; reflexivity. Qed.

(** ** Bytes and fixed-width integers *)

Lemma Z_of_byte_range (b : byte) : 0 <= Z_of_byte b < 256.
Proof.
  unfold Z_of_byte. pose proof (Byte.to_N_bounded b). lia.
Qed.

Lemma Z_of_byte_of_Z (z : Z) : Z_of_byte (byte_of_Z z) = z mod 256.
Proof.
  unfold Z_of_byte, byte_of_Z.
  assert (Hr : 0 <= z mod 256 < 256) by (apply Z.mod_pos_bound; lia).
  destruct (Byte.of_N (Z.to_N (z mod 256))) as [b|] eqn:E.
  - apply Byte.to_of_N in E. rewrite E. lia.
  - apply Byte.of_N_None_iff in E. lia.
Qed.

Lemma byte_of_Z_of_byte (b : byte) : byte_of_Z (Z_of_byte b) = b.
Proof.
  unfold byte_of_Z.
  rewrite Z.mod_small by apply Z_of_byte_range.
  unfold Z_of_byte. rewrite N2Z.id, Byte.of_to_N. reflexivity.
Qed.

Lemma le_bytes_length (k : nat) (v : Z) : List.length (le_bytes k v) = k.
Proof.
  revert v. induction k as [|k IH]; intros v; simpl; [reflexivity|].
  now rewrite IH.
Qed.

Lemma le_value_le_bytes (k : nat) (v : Z) :
  0 <= v < 2 ^ (8 * Z.of_nat k) -> le_value (le_bytes k v) = v.
Proof.
  revert v. induction k as [|k IH]; intros v Hv.
  - simpl in *. lia.
  - cbn [le_bytes le_value]. rewrite Z_of_byte_of_Z, Z.shiftr_div_pow2 by lia.
    change (2 ^ 8) with 256.
    rewrite IH.
    + pose proof (Z.div_mod v 256). lia.
    + replace (8 * Z.of_nat (S k)) with (8 + 8 * Z.of_nat k) in Hv by lia.
      rewrite Z.pow_add_r in Hv by lia. change (2 ^ 8) with 256 in Hv.
      split; [apply Z.div_pos; lia|].
      apply Z.div_lt_upper_bound; lia.
Qed.

Lemma fits_ulong_range (p : platform) (v : Z) :
  fits_ulong p v = true <-> 0 <= v < 2 ^ (8 * Z.of_nat (itemsize p)).
Proof.
  unfold fits_ulong, ULONG_MAX. rewrite andb_true_iff, Z.leb_le, Z.leb_le. lia.
Qed.

Lemma itemsize_pos (p : platform) : (0 < itemsize p)%nat.
Proof. unfold itemsize. destruct (ulong p); lia. Qed.

Lemma item_bytes_length (p : platform) (v : Z) :
  List.length (item_bytes p v) = itemsize p.
Proof.
  unfold item_bytes. destruct (order p);
    rewrite ?length_rev; apply le_bytes_length.
Qed.

Lemma item_bytes_inj (p : platform) (v v' : Z) :
  fits_ulong p v = true -> fits_ulong p v' = true ->
  item_bytes p v = item_bytes p v' -> v = v'.
Proof.
  intros Hv Hv' E. apply fits_ulong_range in Hv, Hv'.
  assert (E' : le_bytes (itemsize p) v = le_bytes (itemsize p) v').
  { unfold item_bytes in E. destruct (order p); [exact E|].
    apply (f_equal (@rev byte)) in E. now rewrite !rev_involutive in E. }
  rewrite <- (le_value_le_bytes (itemsize p) v), <- (le_value_le_bytes (itemsize p) v'), E'
    by assumption.
  reflexivity.
Qed.

Lemma tobytes_length (p : platform) (a : list Z) :
  List.length (tobytes p a) = (itemsize p * List.length a)%nat.
Proof.
  unfold tobytes. induction a as [|v a IH]; simpl; [lia|].
  rewrite length_app, item_bytes_length, IH. lia.
Qed.

Lemma tobytes_app (p : platform) (a b : list Z) :
  tobytes p (a ++ b) = tobytes p a ++ tobytes p b.
Proof. unfold tobytes. apply flat_map_app. Qed.

Lemma tobytes_concat (p : platform) (a : list Z) :
  tobytes p a = List.concat (map (item_bytes p) a).
Proof. unfold tobytes. apply flat_map_concat_map. Qed.

Lemma app_inj_length {A} (a b c d : list A) :
  List.length a = List.length c -> a ++ b = c ++ d -> a = c /\ b = d.
Proof.
  revert c. induction a as [|x a IH]; intros [|y c] Hl E; simpl in *; try discriminate.
  - auto.
  - injection E as -> E. destruct (IH c) as [-> ->]; auto.
Qed.

(** Distinct arrays have distinct byte strings. *)
Lemma tobytes_inj (p : platform) (a b : list Z) :
  forallb (fits_ulong p) a = true -> forallb (fits_ulong p) b = true ->
  tobytes p a = tobytes p b -> a = b.
Proof.
  revert b. induction a as [|v a IH]; intros [|v' b] Ha Hb E.
  - reflexivity.
  - apply (f_equal (@List.length byte)) in E. rewrite !tobytes_length in E.
    pose proof (itemsize_pos p). simpl in E. nia.
  - apply (f_equal (@List.length byte)) in E. rewrite !tobytes_length in E.
    pose proof (itemsize_pos p). simpl in E. nia.
  - simpl in Ha, Hb. apply andb_true_iff in Ha as [Hv Ha], Hb as [Hv' Hb].
    unfold tobytes in E. simpl in E. apply app_inj_length in E as [E1 E2].
    + f_equal; [eapply item_bytes_inj; eassumption | apply IH; assumption].
    + now rewrite !item_bytes_length.
Qed.

(** ** The digest as an integer: [int(hexdigest, 16)] *)

Arguments SHA256.digest : simpl never.

Lemma be_bytes_length (k : nat) (v : Z) : List.length (SHA256.be_bytes k v) = k.
Proof. induction k as [|k IH]; simpl; [reflexivity | now rewrite IH]. Qed.

Lemma digest_length (msg : list byte) : List.length (SHA256.digest msg) = 32%nat.
Proof.
  unfold SHA256.digest, SHA256.output.
  generalize (fold_left SHA256.compress (SHA256.blocks_of (SHA256.pad msg)) SHA256.init).
  intros s. rewrite !length_app, !be_bytes_length. reflexivity.
Qed.

Lemma be_value_acc_range (bs : list byte) (acc : Z) :
  0 <= acc ->
  0 <= fold_left (fun a b => a * 256 + Z_of_byte b) bs acc
    < (acc + 1) * 256 ^ Z.of_nat (List.length bs).
Proof.
  revert acc. induction bs as [|b bs IH]; intros acc Hacc.
  - simpl. lia.
  - cbn [fold_left List.length]. pose proof (Z_of_byte_range b) as Hb.
    specialize (IH (acc * 256 + Z_of_byte b) ltac:(lia)).
    rewrite Nat2Z.inj_succ, Z.pow_succ_r by lia.
    assert (0 < 256 ^ Z.of_nat (List.length bs)) by (apply Z.pow_pos_nonneg; lia).
    split; [lia|]. eapply Z.lt_le_trans; [apply IH|]. nia.
Qed.

(** The digest read as an integer is an unsigned 256-bit number. *)
Lemma digest_value_range (msg : list byte) :
  0 <= SHA256.be_value (SHA256.digest msg) < 2 ^ 256.
Proof.
  unfold SHA256.be_value.
  pose proof (be_value_acc_range (SHA256.digest msg) 0 ltac:(lia)) as H.
  rewrite digest_length in H. exact H.
Qed.

Lemma digit_value_hex_digit (n : Z) :
  0 <= n < 16 -> digit_value (hex_digit n) = Some n.
Proof.
  intros Hn. rewrite <- (Z2Nat.id n) by lia.
  assert (Hk : (Z.to_nat n < 16)%nat) by lia.
  generalize dependent (Z.to_nat n). intros k Hk.
  do 16 (destruct k as [|k]; [reflexivity|]). lia.
Qed.

Lemma int16_digits_hexdigest (d : list byte) (acc : Z) :
  int16_digits (hexdigest d) acc
  = Ok (fold_left (fun a b => a * 256 + Z_of_byte b) d acc).
Proof.
  revert acc. induction d as [|b d IH]; intros acc; [reflexivity|].
  pose proof (Z_of_byte_range b) as Hb.
  cbn [hexdigest fold_right hex_of_byte append int16_digits fold_left].
  rewrite !digit_value_hex_digit.
  - fold (hexdigest d). rewrite IH. do 2 f_equal.
    pose proof (Z.div_mod (Z_of_byte b) 16). lia.
  - apply Z.mod_pos_bound. lia.
  - split; [apply Z.div_pos; lia | apply Z.div_lt_upper_bound; lia].
Qed.

(** Parsing the hexadecimal digest never fails and gives the digest as a
    big-endian unsigned integer. *)
Lemma int_base16_hexdigest (msg : list byte) :
  int_base16 (hexdigest (SHA256.digest msg))
  = Ok (SHA256.be_value (SHA256.digest msg)).
Proof.
  pose proof (digest_length msg) as Hl.
  destruct (SHA256.digest msg) as [|b d] eqn:E; [discriminate|].
  unfold int_base16.
  change (hexdigest (b :: d)) with (hex_of_byte b ++ hexdigest d)%string.
  cbn [hex_of_byte append].
  change (String (hex_digit (Z_of_byte b / 16))
            (String (hex_digit (Z_of_byte b mod 16)) (hexdigest d)))
    with (hexdigest (b :: d)).
  apply int16_digits_hexdigest.
Qed.

(** ** Comprehensions that may raise *)

Lemma mapM_ok {A B} (f : A -> result B) (g : A -> B) (l : list A) :
  (forall x, In x l -> f x = Ok (g x)) -> mapM f l = Ok (map g l).
Proof.
  induction l as [|x l IH]; intros H; [reflexivity|].
  cbn [mapM map]. rewrite (H x) by (left; reflexivity).
  cbn [bind]. rewrite IH by (intros y Hy; apply H; right; exact Hy).
  reflexivity.
Qed.

Lemma mapM_raise {A B} (f : A -> result B) (e : exn) (l : list A) :
  (forall x, In x l -> (exists y, f x = Ok y) \/ f x = Raise e) ->
  (exists x, In x l /\ f x = Raise e) ->
  mapM f l = Raise e.
Proof.
  induction l as [|x l IH]; intros Hall [x0 [Hin Hx0]]; [destruct Hin|].
  cbn [mapM]. destruct (Hall x (or_introl eq_refl)) as [[y Hy]|Hr].
  - rewrite Hy. cbn [bind]. rewrite IH; [reflexivity| |].
    + intros z Hz. apply Hall. right. exact Hz.
    + destruct Hin as [<-|Hin]; [congruence|]. exists x0. auto.
  - rewrite Hr. reflexivity.
Qed.

Lemma array_L_spec (p : platform) (w : list Z) :
  array_L p w = if forallb (fits_ulong p) w then Ok w else Raise OverflowError.
Proof.
  unfold array_L. induction w as [|v w IH]; [reflexivity|].
  cbn [mapM forallb]. unfold as_unsigned_long at 1.
  destruct (fits_ulong p v); cbn [bind andb]; [|reflexivity].
  rewrite IH. destruct (forallb (fits_ulong p) w); reflexivity.
Qed.

(** What [hash_ngram] returns or raises, for every argument. *)
Lemma hash_ngram_spec (p : platform) (V B : Z) (w : list Z) :
  hash_ngram p V B w =
    if forallb (fits_ulong p) w then
      if B =? 0 then Raise ZeroDivisionError else Ok (spec_feature_id p V B w)
    else Raise OverflowError.
Proof.
  unfold hash_ngram. rewrite array_L_spec.
  destruct (forallb (fits_ulong p) w); cbn [bind]; [|reflexivity].
  rewrite int_base16_hexdigest. cbn [bind]. unfold py_mod.
  destruct (B =? 0); cbn [bind]; [reflexivity|].
  unfold spec_feature_id. now rewrite tobytes_concat.
Qed.

(** ** [get_ngrams] enumerates the windows by start position *)

Lemma range_In (lo hi x : Z) : In x (range lo hi) <-> lo <= x < hi.
Proof.
  unfold range. rewrite in_map_iff. split.
  - intros [k [<- Hk]]. apply in_seq in Hk. lia.
  - intros H. exists (Z.to_nat (x - lo)). split; [lia|]. apply in_seq. lia.
Qed.

Lemma suffixes_range (u : list Z) (n : Z) :
  map (slice_from u) (range 0 n)
  = map (fun j => skipn j u) (seq 0 (Z.to_nat n)).
Proof.
  unfold range. rewrite map_map, Z.sub_0_r. apply map_ext. intros k.
  unfold slice_from. cbn [Z.add].
  destruct (Z.of_nat k <? 0) eqn:E; [apply Z.ltb_lt in E; lia|].
  now rewrite Nat2Z.id.
Qed.

Lemma zip_star_cons {A} (l l' : list A) (ls : list (list A)) :
  zip_star (l :: l' :: ls) = zip_cons l (zip_star (l' :: ls)).
Proof. reflexivity. Qed.

Lemma singletons_windows {A} (l : list A) :
  map (fun x => [x]) l
  = map (fun j => firstn 1 (skipn j l)) (seq 0 (List.length l)).
Proof.
  induction l as [|x l IH]; [reflexivity|].
  cbn [List.length seq map]. rewrite <- seq_shift, map_map.
  cbn [skipn firstn]. f_equal. exact IH.
Qed.

Lemma zip_cons_tabulate {A} (d : A) (c : nat) :
  forall (l : list A) (f : nat -> list A),
    (c <= List.length l)%nat ->
    zip_cons l (map f (seq 0 c)) = map (fun j => nth j l d :: f j) (seq 0 c).
Proof.
  induction c as [|c IH]; intros l f Hc.
  - destruct l; reflexivity.
  - destruct l as [|x l]; [simpl in Hc; lia|].
    cbn [seq map]. rewrite <- seq_shift, !map_map.
    unfold zip_cons. cbn [combine map fst snd nth]. f_equal.
    specialize (IH l (fun j => f (S j)) ltac:(simpl in Hc; lia)).
    unfold zip_cons in IH. rewrite <- IH. reflexivity.
Qed.

Lemma nth_cons_skipn {A} (d : A) (l : list A) (j : nat) :
  (j < List.length l)%nat -> nth j l d :: skipn (S j) l = skipn j l.
Proof.
  revert j. induction l as [|x l IH]; intros j Hj; [simpl in Hj; lia|].
  destruct j as [|j]; [reflexivity|].
  cbn [nth skipn]. apply IH. simpl in Hj. lia.
Qed.

Lemma nth_skipn_shift {A} (d : A) (l : list A) (i j : nat) :
  nth j (skipn i l) d = nth (i + j) l d.
Proof.
  revert l. induction i as [|i IH]; intros l; [reflexivity|].
  destruct l as [|x l]; [destruct j; reflexivity|]. cbn [skipn Nat.add nth]. apply IH.
Qed.

(** Zipping the [m + 1] suffixes that start at [i], [i + 1], ... gives the
    windows of length [m + 1] from position [i] on. *)
Lemma zip_suffixes (u : list Z) (m : nat) :
  forall i,
    zip_star (map (fun j => skipn j u) (seq i (S m)))
    = map (fun j => firstn (S m) (skipn (i + j) u))
          (seq 0 (List.length u + 1 - (i + S m))).
Proof.
  induction m as [|m IH]; intros i.
  - cbn [seq map zip_star]. rewrite singletons_windows, length_skipn.
    replace (List.length u + 1 - (i + 1))%nat with (List.length u - i)%nat by lia.
    apply map_ext. intros j. now rewrite skipn_skipn, Nat.add_comm.
  - change (seq i (S (S m))) with (i :: S i :: seq (S (S i)) m).
    cbn [map]. rewrite zip_star_cons.
    change (skipn (S i) u :: map (fun j => skipn j u) (seq (S (S i)) m))
      with (map (fun j => skipn j u) (seq (S i) (S m))).
    rewrite IH.
    replace (List.length u + 1 - (S i + S m))%nat
      with (List.length u + 1 - (i + S (S m)))%nat by lia.
    rewrite (zip_cons_tabulate 0)
      by (rewrite length_skipn; lia).
    apply map_ext_in. intros j Hj. apply in_seq in Hj.
    rewrite nth_skipn_shift.
    replace (S i + j)%nat with (S (i + j)) by lia.
    rewrite <- (nth_cons_skipn 0 u (i + j)) by lia. reflexivity.
Qed.

Lemma get_ngrams_windows (u : list Z) (n : Z) :
  1 <= n -> get_ngrams u n = windows u (Z.to_nat n).
Proof.
  intros Hn. unfold get_ngrams, windows, window. rewrite suffixes_range.
  destruct (Z.to_nat n) as [|m] eqn:E; [lia|].
  rewrite zip_suffixes. reflexivity.
Qed.

Lemma windows_length (u : list Z) (n : nat) :
  List.length (windows u n) = (List.length u + 1 - n)%nat.
Proof. unfold windows. now rewrite length_map, length_seq. Qed.

Lemma window_incl (u : list Z) (n j : nat) (x : Z) :
  In x (window u n j) -> In x u.
Proof.
  unfold window. intros H.
  rewrite <- (firstn_skipn j u). apply in_or_app. right.
  rewrite <- (firstn_skipn n (skipn j u)). apply in_or_app. left. exact H.
Qed.

Lemma windows_fit (p : platform) (u : list Z) (n : nat) (w : list Z) :
  forallb (fits_ulong p) u = true -> In w (windows u n) ->
  forallb (fits_ulong p) w = true.
Proof.
  intros Hu Hw. unfold windows in Hw. apply in_map_iff in Hw as [j [<- _]].
  rewrite forallb_forall in *. intros x Hx. apply Hu. eapply window_incl, Hx.
Qed.

(** The list the comprehension iterates over. *)
Lemma all_ngrams_windows (u : list Z) (N : Z) :
  flat_map (get_ngrams u) (range 2 (N + 1))
  = List.concat (map (fun n => windows u (Z.to_nat n)) (range 2 (N + 1))).
Proof.
  rewrite flat_map_concat_map. f_equal. apply map_ext_in.
  intros n Hn. apply range_In in Hn. apply get_ngrams_windows. lia.
Qed.

(** ** What [augment_with_ngrams] returns *)

Lemma augment_ok (p : platform) (u : list Z) (V B N : Z) :
  forallb (fits_ulong p) u = true -> B <> 0 ->
  augment_with_ngrams p u V B N = Ok (u ++ ordered_features p u V B N).
Proof.
  intros Hu HB. unfold augment_with_ngrams.
  rewrite (mapM_ok _ (spec_feature_id p V B)).
  - cbn [bind]. do 2 f_equal. unfold ordered_features.
    rewrite all_ngrams_windows, concat_map, map_map. reflexivity.
  - intros w Hw. rewrite all_ngrams_windows in Hw.
    apply in_concat in Hw as [ws [Hws Hw]].
    apply in_map_iff in Hws as [n [<- _]].
    rewrite hash_ngram_spec, (windows_fit p u _ w Hu Hw).
    destruct (B =? 0) eqn:E; [apply Z.eqb_eq in E; contradiction | reflexivity].
Qed.

Lemma valid_input_spec (p : platform) (seq : list Z) (V B N : Z) :
  valid_input p seq V B N = true <->
  forallb (fits_ulong p) seq = true /\ 0 < V /\ 0 < B /\ 1 <= N.
Proof.
  unfold valid_input. rewrite !andb_true_iff, !Z.ltb_lt, Z.leb_le. tauto.
Qed.

Lemma augment_valid (p : platform) (seq : list Z) (V B N : Z) :
  valid_input p seq V B N = true ->
  augment_with_ngrams p seq V B N = Ok (seq ++ ordered_features p seq V B N).
Proof.
  intros H. apply valid_input_spec in H as (Hs & _ & HB & _).
  apply augment_ok; [exact Hs | lia].
Qed.

Lemma mapM_Ok_inv {A B} (f : A -> result B) (g : A -> B) (l : list A) :
  (forall x y, f x = Ok y -> y = g x) ->
  forall ys, mapM f l = Ok ys -> ys = map g l.
Proof.
  intros Hf. induction l as [|x l IH]; intros ys H.
  - simpl in H. now injection H as <-.
  - cbn [mapM] in H. destruct (f x) as [y|e] eqn:Ex; [|discriminate].
    cbn [bind] in H. destruct (mapM f l) as [zs|e]; [|discriminate].
    cbn [bind] in H. injection H as <-. cbn [map].
    rewrite (Hf x y Ex), (IH zs eq_refl). reflexivity.
Qed.

Lemma hash_ngram_Ok_inv (p : platform) (V B : Z) (w : list Z) (y : Z) :
  hash_ngram p V B w = Ok y -> y = spec_feature_id p V B w.
Proof.
  rewrite hash_ngram_spec.
  destruct (forallb (fits_ulong p) w); [|discriminate].
  destruct (B =? 0); [discriminate|]. now intros [= <-].
Qed.

(** Whenever the call returns, it returns the sequence followed by the
    features of the windows in reference order. *)
Lemma augment_Ok_inv (p : platform) (u : list Z) (V B N : Z) (out : list Z) :
  augment_with_ngrams p u V B N = Ok out ->
  out = u ++ ordered_features p u V B N.
Proof.
  unfold augment_with_ngrams. intros H.
  destruct (mapM _ _) as [ys|e] eqn:E; [|discriminate].
  cbn [bind] in H. injection H as <-. f_equal.
  apply (mapM_Ok_inv _ (spec_feature_id p V B)) in E.
  - subst ys. unfold ordered_features.
    rewrite all_ngrams_windows, concat_map, map_map. reflexivity.
  - intros w y. apply hash_ngram_Ok_inv.
Qed.

(** ** Counting and indexing the hashed features *)

Lemma features_length (p : platform) (seq : list Z) (V B : Z) (ns : list Z) :
  (forall n, In n ns -> 0 <= n) ->
  Z.of_nat (List.length
    (List.concat (map (fun n => map (spec_feature_id p V B) (windows seq (Z.to_nat n))) ns)))
  = sum_Z (map (window_count (Z.of_nat (List.length seq))) ns).
Proof.
  induction ns as [|n ns IH]; intros Hns; [reflexivity|].
  cbn [map List.concat sum_Z fold_right].
  rewrite length_app, length_map, windows_length, Nat2Z.inj_add.
  fold (sum_Z (map (window_count (Z.of_nat (List.length seq))) ns)).
  rewrite IH by (intros m Hm; apply Hns; right; exact Hm).
  unfold window_count. specialize (Hns n (or_introl eq_refl)). lia.
Qed.

Lemma ordered_features_length (p : platform) (seq : list Z) (V B N : Z) :
  Z.of_nat (List.length (ordered_features p seq V B N))
  = sum_Z (map (window_count (Z.of_nat (List.length seq))) (range 2 (N + 1))).
Proof.
  unfold ordered_features. apply features_length.
  intros n Hn. apply range_In in Hn. lia.
Qed.

Lemma map_seq_shift {A} (f : nat -> A) (a b : nat) :
  map f (seq a b) = map (fun k => f (a + k)%nat) (seq 0 b).
Proof.
  revert a. induction b as [|b IH]; intros a; [reflexivity|].
  cbn [seq map]. rewrite Nat.add_0_r. f_equal.
  rewrite IH, <- seq_shift, map_map. apply map_ext.
  intros k. now rewrite Nat.add_succ_r.
Qed.

Lemma range_split (lo mid hi : Z) :
  lo <= mid <= hi -> range lo hi = range lo mid ++ range mid hi.
Proof.
  intros H. unfold range.
  replace (Z.to_nat (hi - lo)) with (Z.to_nat (mid - lo) + Z.to_nat (hi - mid))%nat by lia.
  rewrite seq_app, map_app. f_equal. cbn [Nat.add].
  rewrite map_seq_shift. apply map_ext. intros k. lia.
Qed.

Lemma range_cons (lo hi : Z) :
  lo < hi -> range lo hi = lo :: range (lo + 1) hi.
Proof.
  intros H. unfold range.
  replace (Z.to_nat (hi - lo)) with (S (Z.to_nat (hi - (lo + 1)))) by lia.
  cbn [seq map]. f_equal; [lia|].
  rewrite map_seq_shift. apply map_ext. intros k. lia.
Qed.

Lemma nth_window (seq : list Z) (n j : nat) :
  (j + n <= List.length seq)%nat ->
  nth j (windows seq n) [] = window seq n j.
Proof.
  intros H. unfold windows.
  rewrite (nth_indep _ [] (window seq n 0))
    by (rewrite length_map, length_seq; lia).
  rewrite map_nth, seq_nth by lia. reflexivity.
Qed.

Lemma nth_ordered_features (p : platform) (seq : list Z) (V B N n j : Z) :
  2 <= n <= N -> 0 <= j <= Z.of_nat (List.length seq) - n ->
  nth (Z.to_nat (sum_Z (map (window_count (Z.of_nat (List.length seq))) (range 2 n)) + j))
      (ordered_features p seq V B N) 0
  = spec_feature_id p V B (window seq (Z.to_nat n) (Z.to_nat j)).
Proof.
  intros Hn Hj. unfold ordered_features.
  rewrite (range_split 2 n (N + 1)) by lia.
  rewrite (range_cons n (N + 1)) by lia.
  rewrite map_app, concat_app. cbn [map List.concat].
  pose proof (features_length p seq V B (range 2 n)
                ltac:(intros m Hm; apply range_In in Hm; lia)) as Hlen.
  rewrite <- Hlen.
  replace (Z.to_nat (Z.of_nat _ + j))
    with (List.length (List.concat (map (fun n0 => map (spec_feature_id p V B)
            (windows seq (Z.to_nat n0))) (range 2 n))) + Z.to_nat j)%nat by lia.
  rewrite app_nth2_plus, app_nth1
    by (rewrite length_map, windows_length; lia).
  rewrite (nth_indep _ 0 (spec_feature_id p V B []))
    by (rewrite length_map, windows_length; lia).
  rewrite map_nth, nth_window by lia. reflexivity.
Qed.

Lemma nth_augment (p : platform) (seq : list Z) (V B N n j : Z) (out : list Z) :
  augment_with_ngrams p seq V B N = Ok out ->
  2 <= n <= N -> 0 <= j <= Z.of_nat (List.length seq) - n ->
  nth (Z.to_nat (feature_index (Z.of_nat (List.length seq)) n j)) out 0
  = spec_feature_id p V B (window seq (Z.to_nat n) (Z.to_nat j)).
Proof.
  intros H Hn Hj. apply augment_Ok_inv in H. subst out.
  unfold feature_index.
  assert (Hs : 0 <= sum_Z (map (window_count (Z.of_nat (List.length seq))) (range 2 n))).
  { rewrite <- (features_length p seq V B); [lia|].
    intros m Hm. apply range_In in Hm. lia. }
  replace (Z.to_nat (Z.of_nat (List.length seq) + _ + j))
    with (List.length seq
          + Z.to_nat (sum_Z (map (window_count (Z.of_nat (List.length seq))) (range 2 n)) + j))%nat
    by lia.
  rewrite app_nth2_plus. now apply nth_ordered_features.
Qed.

(** * The augmenter's laws *)

(** On a valid input the call returns. *)
Lemma augment_returns (p : platform) (seq : list Z) (V B N : Z) :
  valid_input p seq V B N = true ->
  exists out, augment_with_ngrams p seq V B N = Ok out.
Proof. intros Hv. eexists. now apply augment_valid. Qed.

(** C1 (length law).  The length of the output is the length of the input
    plus, for each n from 2 to max_n, the number [max 0 (len - n + 1)] of
    windows of length n; and on every valid input there is an output. *)
Theorem augment_length_law (p : platform) (seq : list Z) (V B N : Z) :
  (forall out,
     augment_with_ngrams p seq V B N = Ok out ->
     Z.of_nat (List.length out)
     = Z.of_nat (List.length seq)
       + sum_Z (map (fun n => Z.max 0 (Z.of_nat (List.length seq) - n + 1))
                    (range 2 (N + 1)))) /\
  (valid_input p seq V B N = true ->
   exists out, augment_with_ngrams p seq V B N = Ok out).
Proof.
  split; [|apply augment_returns].
  intros out H. apply augment_Ok_inv in H. subst out.
  rewrite length_app, Nat2Z.inj_add, ordered_features_length. reflexivity.
Qed.

Lemma augment_length_law_witness :
  augment_with_ngrams lp64 [4; 8; 15; 16] 100 1000 3
  = Ok [4; 8; 15; 16; 779; 806; 748; 531; 209] /\
  9 = 4 + sum_Z [3; 2].
Proof.
  assert (E : augment_with_ngrams lp64 [4; 8; 15; 16] 100 1000 3
              = Ok [4; 8; 15; 16; 779; 806; 748; 531; 209])
    by (vm_compute; reflexivity).
  split; [exact E|].
  exact (proj1 (augment_length_law lp64 [4; 8; 15; 16] 100 1000 3) _ E).
Defined.

(** C4 (prefix law).  The first [len seq] elements of the output are the
    input sequence itself; and on every valid input there is an output. *)
Theorem augment_prefix_law (p : platform) (seq : list Z) (V B N : Z) :
  (forall out,
     augment_with_ngrams p seq V B N = Ok out ->
     firstn (List.length seq) out = seq) /\
  (valid_input p seq V B N = true ->
   exists out, augment_with_ngrams p seq V B N = Ok out).
Proof.
  split; [|apply augment_returns].
  intros out H. apply augment_Ok_inv in H. subst out.
  rewrite firstn_app, Nat.sub_diag, firstn_all, firstn_O. apply app_nil_r.
Qed.

Lemma augment_prefix_law_witness :
  augment_with_ngrams lp64 [7; 0; 7] 8 16 4 = Ok [7; 0; 7; 19; 9; 13] /\
  firstn 3 [7; 0; 7; 19; 9; 13] = [7; 0; 7].
Proof.
  assert (E : augment_with_ngrams lp64 [7; 0; 7] 8 16 4 = Ok [7; 0; 7; 19; 9; 13])
    by (vm_compute; reflexivity).
  split; [exact E|].
  exact (proj1 (augment_prefix_law lp64 [7; 0; 7] 8 16 4) _ E).
Defined.

Lemma spec_feature_id_range (p : platform) (V B : Z) (w : list Z) :
  0 < B -> V <= spec_feature_id p V B w < V + B.
Proof.
  intros HB. unfold spec_feature_id.
  pose proof (Z.mod_pos_bound
    (SHA256.be_value (SHA256.digest (List.concat (map (item_bytes p) w)))) B HB).
  lia.
Qed.

Lemma ordered_features_range (p : platform) (seq : list Z) (V B N x : Z) :
  0 < B -> In x (ordered_features p seq V B N) -> V <= x < V + B.
Proof.
  intros HB Hx. unfold ordered_features in Hx.
  apply in_concat in Hx as [fs [Hfs Hx]].
  apply in_map_iff in Hfs as [n [<- _]].
  apply in_map_iff in Hx as [w [<- _]].
  now apply spec_feature_id_range.
Qed.

(** C5 (range law).  With a positive vocabulary size V and bucket count B,
    every hashed feature ID appended to the sequence lies in [V, V+B), and
    when the original IDs lie in [0, V) every element of the output lies in
    [0, V+B); and on every valid input there is an output. *)
Theorem augment_range_law (p : platform) (seq : list Z) (V B N : Z) :
  (forall out,
     augment_with_ngrams p seq V B N = Ok out -> 0 < V -> 0 < B ->
     (forall x, In x (skipn (List.length seq) out) -> V <= x < V + B) /\
     ((forall t, In t seq -> 0 <= t < V) ->
      forall x, In x out -> 0 <= x < V + B)) /\
  (valid_input p seq V B N = true ->
   exists out, augment_with_ngrams p seq V B N = Ok out).
Proof.
  split; [|apply augment_returns].
  intros out H HV HB. apply augment_Ok_inv in H. subst out. split.
  - intros x. rewrite skipn_app, Nat.sub_diag, skipn_all. cbn [skipn app].
    now apply ordered_features_range.
  - intros Hseq x Hx. apply in_app_or in Hx as [Hx|Hx].
    + specialize (Hseq x Hx). lia.
    + apply (ordered_features_range p seq V B N x HB) in Hx. lia.
Qed.

Lemma augment_range_law_witness :
  augment_with_ngrams lp64 [3; 1; 2] 5 7 3 = Ok [3; 1; 2; 9; 11; 6] /\
  (forall x, In x (skipn 3 [3; 1; 2; 9; 11; 6]) -> 5 <= x < 5 + 7) /\
  ((forall t, In t [3; 1; 2] -> 0 <= t < 5) ->
   forall x, In x [3; 1; 2; 9; 11; 6] -> 0 <= x < 5 + 7).
Proof.
  assert (E : augment_with_ngrams lp64 [3; 1; 2] 5 7 3 = Ok [3; 1; 2; 9; 11; 6])
    by (vm_compute; reflexivity).
  split; [exact E|].
  assert (HV : 0 < 5) by lia. assert (HB : 0 < 7) by lia.
  exact (proj1 (augment_range_law lp64 [3; 1; 2] 5 7 3) _ E HV HB).
Defined.

(** C6 (order of the hashed features).  The output is the input followed by
    the hashed features grouped by n ascending from 2 to max_n and, within
    each n, by window start position ascending: the feature of the window
    of length n starting at j stands at index
    [len + (number of windows shorter than n) + j].  On every valid input
    there is an output. *)
Theorem augment_feature_order (p : platform) (seq : list Z) (V B N : Z) :
  (forall out,
     augment_with_ngrams p seq V B N = Ok out ->
     out = seq ++ List.concat
             (map (fun n => map (fun j => spec_feature_id p V B
                                            (firstn (Z.to_nat n) (skipn j seq)))
                                (List.seq 0 (List.length seq + 1 - Z.to_nat n)))
                  (range 2 (N + 1))) /\
     forall n j,
       2 <= n <= N -> 0 <= j <= Z.of_nat (List.length seq) - n ->
       nth (Z.to_nat (feature_index (Z.of_nat (List.length seq)) n j)) out 0
       = spec_feature_id p V B (firstn (Z.to_nat n) (skipn (Z.to_nat j) seq))) /\
  (valid_input p seq V B N = true ->
   exists out, augment_with_ngrams p seq V B N = Ok out).
Proof.
  split; [|apply augment_returns].
  intros out H. split.
  - apply augment_Ok_inv in H. subst out.
    unfold ordered_features, windows, window. do 2 f_equal.
    apply map_ext. intros n. now rewrite map_map.
  - intros n j Hn Hj. now apply (nth_augment p seq V B N n j).
Qed.

Lemma augment_feature_order_witness :
  augment_with_ngrams lp64 [1; 2; 3; 4] 10 100 3
  = Ok [1; 2; 3; 4; 31; 11; 76; 93; 52] /\
  [1; 2; 3; 4; 31; 11; 76; 93; 52]
  = [1; 2; 3; 4]
    ++ [spec_feature_id lp64 10 100 [1; 2]; spec_feature_id lp64 10 100 [2; 3];
        spec_feature_id lp64 10 100 [3; 4];
        spec_feature_id lp64 10 100 [1; 2; 3]; spec_feature_id lp64 10 100 [2; 3; 4]] /\
  nth (Z.to_nat (feature_index 4 3 1)) [1; 2; 3; 4; 31; 11; 76; 93; 52] 0
  = spec_feature_id lp64 10 100 [2; 3; 4].
Proof.
  assert (E : augment_with_ngrams lp64 [1; 2; 3; 4] 10 100 3
              = Ok [1; 2; 3; 4; 31; 11; 76; 93; 52])
    by (vm_compute; reflexivity).
  split; [exact E|].
  destruct (proj1 (augment_feature_order lp64 [1; 2; 3; 4] 10 100 3) _ E) as [H1 H2].
  split; [exact H1|]. apply (H2 3 1); simpl; lia.
Defined.

(** ** Inputs without any window *)

Lemma concat_map_nil {A B} (F : A -> list B) (l : list A) :
  (forall x, In x l -> F x = []) -> List.concat (map F l) = [].
Proof.
  induction l as [|x l IH]; intros H; [reflexivity|].
  cbn [map List.concat]. rewrite (H x (or_introl eq_refl)), IH; [reflexivity|].
  intros y Hy. apply H. right. exact Hy.
Qed.

Lemma no_window (u : list Z) (N : Z) :
  N < 2 \/ (List.length u < 2)%nat ->
  flat_map (get_ngrams u) (range 2 (N + 1)) = [].
Proof.
  intros H. rewrite all_ngrams_windows. apply concat_map_nil.
  intros n Hn. apply range_In in Hn. apply length_zero_iff_nil.
  rewrite windows_length. lia.
Qed.

Lemma augment_no_window (p : platform) (u : list Z) (V B N : Z) :
  N < 2 \/ (List.length u < 2)%nat ->
  augment_with_ngrams p u V B N = Ok u.
Proof.
  intros H. unfold augment_with_ngrams. rewrite (no_window u N H).
  cbn [mapM bind]. now rewrite app_nil_r.
Qed.

(** C8 (empty and too-short input).  The empty sequence is returned
    unchanged for every vocabulary size, bucket count and order, and so is
    [[5]] for order 2, where no 2-gram fits. *)
Theorem augment_empty_and_short (p : platform) (V B N : Z) :
  augment_with_ngrams p [] V B N = Ok [] /\
  augment_with_ngrams p [5] V B 2 = Ok [5].
Proof.
  split; apply augment_no_window; right; simpl; lia.
Qed.

(** ** Two runs *)

Lemma word32_fits (p : platform) (x : list Z) :
  forallb (fun t => (0 <=? t) && (t <? 2 ^ 32)) x = true ->
  forallb (fits_ulong p) x = true.
Proof.
  intros H. rewrite forallb_forall in *. intros t Ht. specialize (H t Ht).
  apply andb_true_iff in H as [H0 H1]. apply Z.leb_le in H0. apply Z.ltb_lt in H1.
  apply fits_ulong_range.
  assert (2 ^ 32 <= 2 ^ (8 * Z.of_nat (itemsize p))).
  { apply Z.pow_le_mono_r; [lia|]. unfold itemsize. destruct (ulong p); lia. }
  lia.
Qed.

(** C7, as the code has it.  The result of a call is a function of its
    arguments and of the platform's unsigned long width and byte order: two
    runs with identical arguments agree when the platforms agree in both.
    Two runs on any two platforms that both return give outputs of the same
    length with the same first [len seq] elements, the sequence itself, and
    the same output when no window is hashed; with tokens in [0, 2^32) and
    a non-zero bucket count both runs return. *)
Theorem augment_two_runs (p1 p2 : platform) (seq : list Z) (V B N : Z) :
  (ulong p1 = ulong p2 -> order p1 = order p2 ->
   augment_with_ngrams p1 seq V B N = augment_with_ngrams p2 seq V B N) /\
  (forall out1 out2,
     augment_with_ngrams p1 seq V B N = Ok out1 ->
     augment_with_ngrams p2 seq V B N = Ok out2 ->
     List.length out1 = List.length out2 /\
     firstn (List.length seq) out1 = seq /\
     firstn (List.length seq) out2 = seq /\
     (N < 2 \/ (List.length seq < 2)%nat -> out1 = out2)) /\
  (forallb (fun t => (0 <=? t) && (t <? 2 ^ 32)) seq = true -> B <> 0 ->
   exists out1 out2,
     augment_with_ngrams p1 seq V B N = Ok out1 /\
     augment_with_ngrams p2 seq V B N = Ok out2).
Proof.
  split; [|split].
  - destruct p1 as [w1 o1], p2 as [w2 o2]. cbn [ulong order].
    intros -> ->. reflexivity.
  - intros out1 out2 H1 H2.
    assert (Hno : N < 2 \/ (List.length seq < 2)%nat -> out1 = out2).
    { intros Hno. rewrite (augment_no_window p1 seq V B N Hno) in H1.
      rewrite (augment_no_window p2 seq V B N Hno) in H2. congruence. }
    apply augment_Ok_inv in H1, H2. subst out1 out2.
    assert (Hpre : forall l : list Z, firstn (List.length seq) (seq ++ l) = seq).
    { intros l. rewrite firstn_app, Nat.sub_diag, firstn_all, firstn_O.
      apply app_nil_r. }
    repeat split; try apply Hpre.
    + rewrite !length_app. f_equal. apply Nat2Z.inj.
      now rewrite !ordered_features_length.
    + exact Hno.
  - intros Hs HB. eexists. eexists.
    split; apply augment_ok; try assumption; now apply word32_fits.
Qed.

Lemma augment_two_runs_witness :
  augment_with_ngrams lp64 [1; 2; 3] 10 100 2 = Ok [1; 2; 3; 31; 11] /\
  augment_with_ngrams llp64 [1; 2; 3] 10 100 2 = Ok [1; 2; 3; 85; 64] /\
  List.length [1; 2; 3; 31; 11] = List.length [1; 2; 3; 85; 64] /\
  firstn 3 [1; 2; 3; 31; 11] = [1; 2; 3] /\ firstn 3 [1; 2; 3; 85; 64] = [1; 2; 3].
Proof.
  assert (E1 : augment_with_ngrams lp64 [1; 2; 3] 10 100 2 = Ok [1; 2; 3; 31; 11])
    by (vm_compute; reflexivity).
  assert (E2 : augment_with_ngrams llp64 [1; 2; 3] 10 100 2 = Ok [1; 2; 3; 85; 64])
    by (vm_compute; reflexivity).
  split; [exact E1|]. split; [exact E2|].
  destruct (proj1 (proj2 (augment_two_runs lp64 llp64 [1; 2; 3] 10 100 2)) _ _ E1 E2)
    as (H1 & H2 & H3 & _).
  split; [exact H1|]. split; [exact H2 | exact H3].
Defined.

(** C7, a counterexample to the claim as stated: the same valid arguments
    give different hashed feature IDs where unsigned long has 8 bytes and
    where it has 4. *)
Lemma augment_differs_across_platforms :
  valid_input lp64 [1; 2; 3] 10 100 2 = true /\
  valid_input llp64 [1; 2; 3] 10 100 2 = true /\
  augment_with_ngrams lp64 [1; 2; 3] 10 100 2 = Ok [1; 2; 3; 31; 11] /\
  augment_with_ngrams llp64 [1; 2; 3] 10 100 2 = Ok [1; 2; 3; 85; 64].
Proof. repeat split; vm_compute; reflexivity. Qed.

(** ** The feature of a window *)

Lemma mapM_Ok_In {A B} (f : A -> result B) (l : list A) (ys : list B) (x : A) :
  mapM f l = Ok ys -> In x l -> exists y, f x = Ok y.
Proof.
  revert ys. induction l as [|a l IH]; intros ys H Hx; [destruct Hx|].
  cbn [mapM] in H. destruct (f a) as [y|e] eqn:Ea; [|discriminate].
  cbn [bind] in H. destruct (mapM f l) as [zs|e]; [|discriminate].
  destruct Hx as [<-|Hx]; [eauto | exact (IH zs eq_refl Hx)].
Qed.

Lemma window_In (u : list Z) (N n j : Z) :
  2 <= n <= N -> 0 <= j <= Z.of_nat (List.length u) - n ->
  In (window u (Z.to_nat n) (Z.to_nat j))
     (flat_map (get_ngrams u) (range 2 (N + 1))).
Proof.
  intros Hn Hj. rewrite all_ngrams_windows. apply in_concat.
  exists (windows u (Z.to_nat n)). split.
  - apply in_map_iff. exists n. split; [reflexivity | apply range_In; lia].
  - unfold windows. apply in_map. apply in_seq. lia.
Qed.

Lemma window_length (u : list Z) (n j : nat) :
  (j + n <= List.length u)%nat -> List.length (window u n j) = n.
Proof.
  intros H. unfold window. rewrite length_firstn, length_skipn. lia.
Qed.

(** A call that returns has hashed each of its windows. *)
Lemma augment_Ok_window (p : platform) (u : list Z) (V B N n j : Z) (out : list Z) :
  augment_with_ngrams p u V B N = Ok out ->
  2 <= n <= N -> 0 <= j <= Z.of_nat (List.length u) - n ->
  hash_ngram p V B (window u (Z.to_nat n) (Z.to_nat j))
  = Ok (spec_feature_id p V B (window u (Z.to_nat n) (Z.to_nat j))).
Proof.
  intros H Hn Hj. unfold augment_with_ngrams in H.
  destruct (mapM _ _) as [ys|e] eqn:E; [|discriminate].
  destruct (mapM_Ok_In _ _ _ _ E (window_In u N n j Hn Hj)) as [y Hy].
  rewrite Hy. f_equal. now apply hash_ngram_Ok_inv.
Qed.

(** C3 (feature ID of a window).  For the window [w] of length n at start j
    of a sequence the call accepts, the feature ID in the output is what
    [hash_ngram] returns for [w]: the tokens serialised in window order to
    [itemsize] bytes each, hashed with SHA-256, the digest read as an
    unsigned 256-bit integer, reduced modulo n_buckets, plus vocab_size.  It
    depends on [w] only: the same window at any position of any other
    sequence gets the same feature ID. *)
Theorem window_feature_id (p : platform) (V B : Z) (seq : list Z) (N n j : Z)
    (out : list Z) :
  augment_with_ngrams p seq V B N = Ok out ->
  2 <= n <= N -> 0 <= j <= Z.of_nat (List.length seq) - n ->
  let w := firstn (Z.to_nat n) (skipn (Z.to_nat j) seq) in
  let bytes_ := List.concat (map (item_bytes p) w) in
  let id := nth (Z.to_nat (feature_index (Z.of_nat (List.length seq)) n j)) out 0 in
  hash_ngram p V B w = Ok id /\
  id = V + SHA256.be_value (SHA256.digest bytes_) mod B /\
  List.length bytes_ = (itemsize p * Z.to_nat n)%nat /\
  (forall t, In t w -> List.length (item_bytes p t) = itemsize p) /\
  0 <= SHA256.be_value (SHA256.digest bytes_) < 2 ^ 256 /\
  forall seq' N' j' out',
    augment_with_ngrams p seq' V B N' = Ok out' ->
    2 <= n <= N' -> 0 <= j' <= Z.of_nat (List.length seq') - n ->
    firstn (Z.to_nat n) (skipn (Z.to_nat j') seq') = w ->
    nth (Z.to_nat (feature_index (Z.of_nat (List.length seq')) n j')) out' 0 = id.
Proof.
  intros H Hn Hj w bytes_ id.
  assert (Hid : id = spec_feature_id p V B w)
    by (apply (nth_augment p seq V B N n j out); assumption).
  repeat split.
  - rewrite Hid. apply (augment_Ok_window p seq V B N n j out); assumption.
  - exact Hid.
  - unfold bytes_. rewrite <- tobytes_concat, tobytes_length. f_equal.
    apply window_length. lia.
  - intros t _. apply item_bytes_length.
  - apply digest_value_range.
  - apply digest_value_range.
  - intros seq' N' j' out' H' Hn' Hj' Hw.
    rewrite (nth_augment p seq' V B N' n j' out' H' Hn' Hj').
    unfold window. rewrite Hw. symmetry. exact Hid.
Qed.

Lemma window_feature_id_witness :
  augment_with_ngrams lp64 [1; 2; 3] 10 100 2 = Ok [1; 2; 3; 31; 11] /\
  2 <= 2 <= 2 /\ 0 <= 1 <= 3 - 2 /\
  hash_ngram lp64 10 100 [2; 3] = Ok 11 /\
  11 = 10 + SHA256.be_value
             (SHA256.digest (List.concat (map (item_bytes lp64) [2; 3]))) mod 100 /\
  List.length (List.concat (map (item_bytes lp64) [2; 3])) = 16%nat.
Proof.
  assert (E : augment_with_ngrams lp64 [1; 2; 3] 10 100 2 = Ok [1; 2; 3; 31; 11])
    by (vm_compute; reflexivity).
  split; [exact E|]. split; [lia|]. split; [lia|].
  destruct (window_feature_id lp64 10 100 [1; 2; 3] 2 2 1 _ E
              ltac:(lia) ltac:(simpl; lia)) as (H1 & H2 & H3 & _).
  split; [exact H1|]. split; [exact H2 | exact H3].
Defined.

(** ** Serialisation keeps windows apart *)

Lemma array_L_Ok_inv (p : platform) (w a : list Z) :
  array_L p w = Ok a -> a = w /\ forallb (fits_ulong p) w = true.
Proof.
  rewrite array_L_spec. destruct (forallb (fits_ulong p) w); [|discriminate].
  intros [= <-]. auto.
Qed.

(** C10 (no collision at the serialisation stage).  A window of n tokens
    serialises to exactly n times the item size bytes, so windows of
    different lengths have byte strings of different lengths; distinct
    windows have distinct byte strings, and when two distinct windows get
    the same feature ID their (distinct) byte strings have digests that
    agree modulo n_buckets. *)
Theorem serialization_never_collides (p : platform) (w1 w2 a1 a2 : list Z) :
  array_L p w1 = Ok a1 -> array_L p w2 = Ok a2 ->
  List.length (tobytes p a1) = (List.length w1 * itemsize p)%nat /\
  List.length (tobytes p a2) = (List.length w2 * itemsize p)%nat /\
  (List.length w1 <> List.length w2 ->
   List.length (tobytes p a1) <> List.length (tobytes p a2)) /\
  (w1 <> w2 -> tobytes p a1 <> tobytes p a2) /\
  (forall V B id,
     w1 <> w2 ->
     hash_ngram p V B w1 = Ok id -> hash_ngram p V B w2 = Ok id ->
     tobytes p a1 <> tobytes p a2 /\
     SHA256.be_value (SHA256.digest (tobytes p a1)) mod B
     = SHA256.be_value (SHA256.digest (tobytes p a2)) mod B).
Proof.
  intros H1 H2.
  apply array_L_Ok_inv in H1 as [-> F1], H2 as [-> F2].
  pose proof (itemsize_pos p) as Hs.
  assert (Hinj : w1 <> w2 -> tobytes p w1 <> tobytes p w2).
  { intros Hne E. apply Hne. now apply (tobytes_inj p). }
  rewrite !tobytes_length.
  split; [lia|]. split; [lia|]. split; [nia|]. split; [exact Hinj|].
  intros V B id Hne E1 E2. split; [now apply Hinj|].
  apply hash_ngram_Ok_inv in E1, E2. unfold spec_feature_id in E1, E2.
  rewrite <- !tobytes_concat in E1, E2. lia.
Qed.

Lemma serialization_never_collides_witness :
  array_L lp64 [1; 2] = Ok [1; 2] /\ array_L lp64 [1; 2; 3] = Ok [1; 2; 3] /\
  List.length (tobytes lp64 [1; 2]) = 16%nat /\
  List.length (tobytes lp64 [1; 2; 3]) = 24%nat /\
  tobytes lp64 [1; 2] <> tobytes lp64 [1; 2; 3].
Proof.
  split; [reflexivity|]. split; [reflexivity|].
  destruct (serialization_never_collides lp64 [1; 2] [1; 2; 3] [1; 2] [1; 2; 3]
              eq_refl eq_refl) as (H1 & H2 & _ & H4 & _).
  split; [exact H1|]. split; [exact H2|]. apply H4. discriminate.
Defined.

(** ** When the call fails *)

Lemma first_window (u : list Z) (N : Z) :
  2 <= N -> (2 <= List.length u)%nat ->
  exists rest,
    flat_map (get_ngrams u) (range 2 (N + 1)) = firstn 2 u :: rest.
Proof.
  intros HN Hu. rewrite all_ngrams_windows, (range_cons 2 (N + 1)) by lia.
  cbn [map List.concat]. unfold windows at 1.
  change (Z.to_nat 2) with 2%nat.
  destruct (List.length u + 1 - 2)%nat as [|k] eqn:E; [lia|].
  cbn [seq map app]. eauto.
Qed.

Lemma forallb_false {A} (f : A -> bool) (l : list A) :
  forallb f l = false -> exists x, In x l /\ f x = false.
Proof.
  induction l as [|x l IH]; [discriminate|].
  cbn [forallb]. intros H. apply andb_false_iff in H as [H|H].
  - exists x. split; [left; reflexivity | exact H].
  - destruct (IH H) as [y [Hy Hf]]. exists y. split; [right|]; assumption.
Qed.

(** With at least two tokens, every token stands in some 2-gram. *)
Lemma token_in_bigram (u : list Z) (t : Z) :
  (2 <= List.length u)%nat -> In t u ->
  exists w, In w (windows u 2) /\ In t w.
Proof.
  intros Hu Ht. destruct (In_nth u t 0 Ht) as [i [Hi <-]].
  destruct (Nat.le_gt_cases (i + 2) (List.length u)) as [Hle|Hgt].
  - exists (window u 2 i). split.
    + unfold windows. apply in_map, in_seq. lia.
    + unfold window. rewrite <- (nth_cons_skipn 0 u i) by lia. left. reflexivity.
  - destruct i as [|i]; [lia|]. exists (window u 2 i). split.
    + unfold windows. apply in_map, in_seq. lia.
    + unfold window. rewrite <- (nth_cons_skipn 0 u i) by lia.
      rewrite <- (nth_cons_skipn 0 u (S i)) by lia. right. left. reflexivity.
Qed.

Lemma bad_token_bad_bigram (p : platform) (u : list Z) (N : Z) :
  2 <= N -> (2 <= List.length u)%nat ->
  forallb (fits_ulong p) u = false ->
  exists w, In w (flat_map (get_ngrams u) (range 2 (N + 1))) /\
            forallb (fits_ulong p) w = false.
Proof.
  intros HN Hu Hbad. apply forallb_false in Hbad as [t [Ht Hf]].
  destruct (token_in_bigram u t Hu Ht) as [w [Hw Htw]].
  exists w. split.
  - rewrite all_ngrams_windows. apply in_concat. exists (windows u 2). split; [|exact Hw].
    apply in_map_iff. exists 2. split; [reflexivity | apply range_In; lia].
  - destruct (forallb (fits_ulong p) w) eqn:E; [|reflexivity].
    rewrite forallb_forall in E. rewrite (E t Htw) in Hf. discriminate.
Qed.

(** The outcome of the call, for every argument. *)
Lemma augment_cases (p : platform) (u : list Z) (V B N : Z) :
  augment_with_ngrams p u V B N =
    if (N <? 2) || (Nat.ltb (List.length u) 2) then Ok u
    else if negb (forallb (fits_ulong p) (firstn 2 u)) then Raise OverflowError
    else if B =? 0 then Raise ZeroDivisionError
    else if forallb (fits_ulong p) u then Ok (u ++ ordered_features p u V B N)
    else Raise OverflowError.
Proof.
  destruct ((N <? 2) || (Nat.ltb (List.length u) 2)) eqn:E.
  - apply augment_no_window. apply orb_true_iff in E as [E|E].
    + left. now apply Z.ltb_lt.
    + right. now apply Nat.ltb_lt.
  - apply orb_false_iff in E as [EN Eu].
    apply Z.ltb_ge in EN. apply Nat.ltb_ge in Eu.
    destruct (forallb (fits_ulong p) (firstn 2 u)) eqn:E2; cbn [negb].
    + destruct (B =? 0) eqn:EB.
      * destruct (first_window u N EN Eu) as [rest Hrest].
        unfold augment_with_ngrams. rewrite Hrest. cbn [mapM].
        rewrite hash_ngram_spec, E2, EB. reflexivity.
      * apply Z.eqb_neq in EB.
        destruct (forallb (fits_ulong p) u) eqn:Eall; [now apply augment_ok|].
        unfold augment_with_ngrams. rewrite (mapM_raise _ OverflowError); [reflexivity| |].
        -- intros w _. rewrite hash_ngram_spec.
           destruct (forallb (fits_ulong p) w); [|now right].
           left. destruct (B =? 0) eqn:EB'; [apply Z.eqb_eq in EB'; contradiction|eauto].
        -- destruct (bad_token_bad_bigram p u N EN Eu Eall) as [w [Hw Hf]].
           exists w. split; [exact Hw|]. now rewrite hash_ngram_spec, Hf.
    + destruct (first_window u N EN Eu) as [rest Hrest].
      unfold augment_with_ngrams. rewrite Hrest. cbn [mapM].
      rewrite hash_ngram_spec, E2. reflexivity.
Qed.

(** C2, as the code has it.  The call checks none of its arguments and has
    no invalid-argument error.  It fails only while hashing a window, so
    only when max_n >= 2 and the sequence has at least two tokens: with
    OverflowError when a token does not fit C unsigned long (negative or too
    large), with ZeroDivisionError when n_buckets is 0.  The vocabulary
    size, a negative bucket count and an order below 1 never make it fail. *)
Theorem augment_failure_modes (p : platform) (seq : list Z) (V B N : Z) :
  (N < 2 \/ (List.length seq < 2)%nat ->
     augment_with_ngrams p seq V B N = Ok seq) /\
  (augment_with_ngrams p seq V B N = Raise OverflowError <->
     2 <= N /\ (2 <= List.length seq)%nat /\
     (forallb (fits_ulong p) (firstn 2 seq) = false \/
      (B <> 0 /\ forallb (fits_ulong p) seq = false))) /\
  (augment_with_ngrams p seq V B N = Raise ZeroDivisionError <->
     2 <= N /\ (2 <= List.length seq)%nat /\
     forallb (fits_ulong p) (firstn 2 seq) = true /\ B = 0) /\
  augment_with_ngrams p seq V B N <> Raise ValueError /\
  ((exists out, augment_with_ngrams p seq V B N = Ok out) <->
     N < 2 \/ (List.length seq < 2)%nat \/
     (forallb (fits_ulong p) seq = true /\ B <> 0)).
Proof.
  split; [apply augment_no_window|].
  rewrite augment_cases.
  destruct (N <? 2) eqn:EN; [apply Z.ltb_lt in EN | apply Z.ltb_ge in EN];
    cbn [orb].
  { repeat split; try discriminate; try (intros; lia); eauto. }
  destruct (Nat.ltb (List.length seq) 2) eqn:Eu;
    [apply Nat.ltb_lt in Eu | apply Nat.ltb_ge in Eu].
  { repeat split; try discriminate; try (intros; lia); eauto. }
  destruct (forallb (fits_ulong p) (firstn 2 seq)) eqn:E2; cbn [negb].
  - destruct (B =? 0) eqn:EB; [apply Z.eqb_eq in EB | apply Z.eqb_neq in EB].
    + repeat split; try discriminate; auto.
      * intros (_ & _ & [H|[H _]]); [discriminate | contradiction].
      * intros [out H]. discriminate.
      * intros [H|[H|[_ H]]]; [lia | lia | contradiction].
    + destruct (forallb (fits_ulong p) seq) eqn:Eall.
      * repeat split; try discriminate; eauto.
        -- intros (_ & _ & [H|[_ H]]); discriminate.
        -- intros (_ & _ & _ & H). contradiction.
      * repeat split; try discriminate; auto.
        -- intros (_ & _ & _ & H). contradiction.
        -- intros [out H]. discriminate.
        -- intros [H|[H|[H _]]]; [lia | lia | discriminate].
  - assert (Eall : forallb (fits_ulong p) seq = false).
    { destruct (forallb (fits_ulong p) seq) eqn:Eall; [|reflexivity].
      rewrite forallb_forall in Eall.
      apply forallb_false in E2 as [t [Ht Hf]].
      rewrite (Eall t) in Hf; [discriminate|].
      rewrite <- (firstn_skipn 2 seq). apply in_or_app. left. exact Ht. }
    repeat split; try discriminate; auto.
    + intros (_ & _ & H & _). discriminate.
    + intros [out H]. discriminate.
    + intros [H|[H|[H _]]]; [lia | lia | congruence].
Qed.

(** C2, a counterexample to the claim as stated: a negative token and a
    vocabulary size of 0 are accepted when no window is hashed. *)
Lemma augment_accepts_invalid_arguments :
  augment_with_ngrams lp64 [-1] 10 100 2 = Ok [-1] /\
  augment_with_ngrams lp64 [1] 0 100 2 = Ok [1] /\
  augment_with_ngrams lp64 [1; 2] 10 100 0 = Ok [1; 2] /\
  augment_with_ngrams lp64 [1; 2] (-3) (-7) 2 = Ok [1; 2; -4].
Proof. repeat split; vm_compute; reflexivity. Qed.

(** ** Order sensitivity *)

Lemma bigram_adjacent (u w : list Z) :
  In w (windows u 2) -> exists a b, w = [a; b] /\ adjacent a b u.
Proof.
  unfold windows. intros H. apply in_map_iff in H as [j [<- Hj]].
  apply in_seq in Hj. unfold window.
  exists (nth j u 0), (nth (S j) u 0). split.
  - rewrite <- (nth_cons_skipn 0 u j), <- (nth_cons_skipn 0 u (S j)) by lia.
    reflexivity.
  - exists (firstn j u), (skipn (S (S j)) u).
    rewrite (nth_cons_skipn 0 u (S j)), (nth_cons_skipn 0 u j) by lia.
    symmetry. apply firstn_skipn.
Qed.

Lemma adjacent_bigram (u : list Z) (a b : Z) :
  adjacent a b u -> In [a; b] (windows u 2).
Proof.
  intros [l1 [l2 ->]]. unfold windows.
  replace [a; b] with (window (l1 ++ a :: b :: l2) 2 (List.length l1)).
  - apply in_map, in_seq. rewrite length_app. simpl. lia.
  - unfold window. rewrite skipn_app, skipn_all, Nat.sub_diag. reflexivity.
Qed.

Lemma NoDup_split_unique {A} (b : A) (x1 y1 x2 y2 : list A) :
  NoDup (x1 ++ b :: y1) -> x1 ++ b :: y1 = x2 ++ b :: y2 -> x1 = x2 /\ y1 = y2.
Proof.
  revert x2. induction x1 as [|a x1 IH]; intros [|a' x2] Hnd E; simpl in *.
  - injection E as ->. auto.
  - injection E as -> ->. inversion Hnd as [|? ? Hnin _]. exfalso. apply Hnin.
    apply in_or_app. right. left. reflexivity.
  - injection E as -> <-. inversion Hnd as [|? ? Hnin _]. exfalso. apply Hnin.
    apply in_or_app. right. left. reflexivity.
  - injection E as -> E. inversion Hnd as [|? ? _ Hnd'].
    destruct (IH x2 Hnd' E) as [-> ->]. auto.
Qed.

(** In a sequence without repetition, a list whose adjacent pairs are all
    adjacent pairs of the sequence is a contiguous part of it. *)
Lemma chain_is_factor {A} (l : list A) :
  NoDup l ->
  forall l' a,
    (forall x y, adjacent x y (a :: l') -> adjacent x y l) ->
    In a l ->
    exists l1 l2, l = l1 ++ (a :: l') ++ l2.
Proof.
  intros Hnd l'. induction l' as [|b l'' IH]; intros a Hadj Ha.
  - apply in_split in Ha as [l1 [l2 ->]]. exists l1, l2. reflexivity.
  - destruct (Hadj a b) as [m1 [m2 Hm]]; [exists [], l''; reflexivity|].
    destruct (IH b) as [k1 [k2 Hk]].
    + intros x y [l1 [l2 E]]. apply Hadj. exists (a :: l1), l2. simpl. now rewrite E.
    + rewrite Hm. apply in_or_app. right. right. left. reflexivity.
    + assert (E : (m1 ++ [a]) ++ b :: m2 = k1 ++ b :: (l'' ++ k2)).
      { rewrite <- app_assoc. simpl. rewrite <- Hm. exact Hk. }
      apply NoDup_split_unique in E as [<- ->].
      * exists m1, k2. rewrite Hm. simpl. reflexivity.
      * rewrite <- app_assoc. simpl. rewrite <- Hm. exact Hnd.
Qed.

Lemma same_bigrams_same_seq (l l' : list Z) :
  NoDup l -> Permutation l l' ->
  (forall w, In w (windows l' 2) -> In w (windows l 2)) ->
  l' = l.
Proof.
  intros Hnd Hp Hsub. destruct l' as [|a l'].
  - apply Permutation_sym, Permutation_nil in Hp. now subst.
  - destruct (chain_is_factor l Hnd l' a) as [l1 [l2 E]].
    + intros x y Hxy. apply adjacent_bigram, Hsub in Hxy.
      apply bigram_adjacent in Hxy as [x' [y' [[= <- <-] H]]]. exact H.
    + apply (Permutation_in a (Permutation_sym Hp)). left. reflexivity.
    + apply Permutation_length in Hp. rewrite E in Hp.
      rewrite !length_app in Hp.
      destruct l1; [|simpl in Hp; lia]. destruct l2; [|simpl in Hp; lia].
      rewrite E. simpl. now rewrite app_nil_r.
Qed.

Lemma In_windows_length (u w : list Z) (n : nat) :
  In w (windows u n) -> List.length w = n.
Proof.
  unfold windows. intros H. apply in_map_iff in H as [j [<- Hj]].
  apply in_seq in Hj. apply window_length. lia.
Qed.

Lemma ordered_features_map (p : platform) (seq : list Z) (V B N : Z) :
  ordered_features p seq V B N
  = map (spec_feature_id p V B) (flat_map (get_ngrams seq) (range 2 (N + 1))).
Proof.
  unfold ordered_features.
  rewrite all_ngrams_windows, concat_map, map_map. reflexivity.
Qed.

Lemma forallb_Permutation {A} (f : A -> bool) (l l' : list A) :
  Permutation l l' -> forallb f l = true -> forallb f l' = true.
Proof.
  intros Hp H. rewrite forallb_forall in *. intros x Hx.
  apply H. apply (Permutation_in x (Permutation_sym Hp) Hx).
Qed.

Lemma hash_ngram_window (p : platform) (u : list Z) (V B N : Z) (w : list Z) :
  forallb (fits_ulong p) u = true -> B <> 0 ->
  In w (flat_map (get_ngrams u) (range 2 (N + 1))) ->
  hash_ngram p V B w = Ok (spec_feature_id p V B w).
Proof.
  intros Hu HB Hw. rewrite all_ngrams_windows in Hw.
  apply in_concat in Hw as [ws [Hws Hw]].
  apply in_map_iff in Hws as [n [<- _]].
  rewrite hash_ngram_spec, (windows_fit p u _ w Hu Hw).
  destruct (B =? 0) eqn:E; [apply Z.eqb_eq in E; contradiction | reflexivity].
Qed.

(** A different arrangement of the same distinct tokens has a bigram that
    the sequence does not have. *)
Lemma permuted_bigram (seq seq' : list Z) :
  NoDup seq -> Permutation seq seq' -> seq <> seq' ->
  exists w, In w (windows seq' 2) /\ ~ In w (windows seq 2).
Proof.
  intros Hnd Hp Hne.
  destruct (forallb (fun w => if in_dec (list_eq_dec Z.eq_dec) w (windows seq 2)
                              then true else false) (windows seq' 2)) eqn:E.
  - exfalso. apply Hne. symmetry. apply same_bigrams_same_seq; try assumption.
    intros w Hw. rewrite forallb_forall in E. specialize (E w Hw).
    destruct (in_dec _ w (windows seq 2)); [assumption | discriminate].
  - apply forallb_false in E as [w [Hw E]]. exists w. split; [exact Hw|].
    destruct (in_dec _ w (windows seq 2)); [discriminate | assumption].
Qed.

(** C9, as the code has it.  Permuting a sequence without repeated values
    into a different sequence always changes its windows: some 2-gram of
    the permuted sequence is not a 2-gram of the original, so for
    max_n >= 2 the windows that are hashed differ.  On a valid input with
    max_n >= 2 the set of hashed feature IDs changes too whenever
    [hash_ngram] does not collide on the windows of the two sequences. *)
Theorem permutation_changes_features (p : platform) (seq seq' : list Z) (V B N : Z) :
  NoDup seq -> Permutation seq seq' -> seq <> seq' ->
  (exists w, In w (get_ngrams seq' 2) /\ ~ In w (get_ngrams seq 2)) /\
  (2 <= N ->
   exists w, In w (flat_map (get_ngrams seq') (range 2 (N + 1))) /\
             ~ In w (flat_map (get_ngrams seq) (range 2 (N + 1)))) /\
  (valid_input p seq V B N = true -> 2 <= N ->
   (forall w w',
      In w (flat_map (get_ngrams seq) (range 2 (N + 1))
            ++ flat_map (get_ngrams seq') (range 2 (N + 1))) ->
      In w' (flat_map (get_ngrams seq) (range 2 (N + 1))
             ++ flat_map (get_ngrams seq') (range 2 (N + 1))) ->
      hash_ngram p V B w = hash_ngram p V B w' -> w = w') ->
   exists out out',
     augment_with_ngrams p seq V B N = Ok out /\
     augment_with_ngrams p seq' V B N = Ok out' /\
     ~ (forall x, In x (skipn (List.length seq) out)
                  <-> In x (skipn (List.length seq') out'))).
Proof.
  intros Hnd Hp Hne.
  destruct (permuted_bigram seq seq' Hnd Hp Hne) as [w [Hw Hnw]].
  assert (Hall : forall u N0, 2 <= N0 -> In w (windows u 2) ->
                 In w (flat_map (get_ngrams u) (range 2 (N0 + 1)))).
  { intros u N0 HN0 Hu. rewrite all_ngrams_windows. apply in_concat.
    exists (windows u 2). split; [|exact Hu]. apply in_map_iff. exists 2.
    split; [reflexivity | apply range_In; lia]. }
  assert (Hback : forall u N0, In w (windows seq' 2) ->
                  In w (flat_map (get_ngrams u) (range 2 (N0 + 1))) ->
                  In w (windows u 2)).
  { intros u N0 Hw2 Hu. rewrite all_ngrams_windows in Hu.
    apply in_concat in Hu as [ws [Hws Hu]].
    apply in_map_iff in Hws as [n [<- _]].
    apply In_windows_length in Hw2. apply In_windows_length in Hu as Hln.
    now rewrite <- Hln, Hw2 in Hu. }
  split; [|split].
  - rewrite !get_ngrams_windows by lia. change (Z.to_nat 2) with 2%nat. eauto.
  - intros HN. exists w. split; [now apply Hall|].
    intros Hin. apply Hnw. now apply (Hback seq N).
  - intros Hv HN Hinj.
    apply valid_input_spec in Hv as (Hs & _ & HB & _).
    assert (HB0 : B <> 0) by lia.
    pose proof (forallb_Permutation _ _ _ Hp Hs) as Hs'.
    exists (seq ++ ordered_features p seq V B N),
           (seq' ++ ordered_features p seq' V B N).
    split; [now apply augment_ok|]. split; [now apply augment_ok|].
    rewrite !skipn_app, !Nat.sub_diag, !skipn_all. cbn [skipn app].
    intros Hsame. apply Hnw.
    assert (Hin' : In w (flat_map (get_ngrams seq') (range 2 (N + 1))))
      by now apply Hall.
    assert (Hf : In (spec_feature_id p V B w) (ordered_features p seq V B N)).
    { apply Hsame. rewrite ordered_features_map. now apply in_map. }
    rewrite ordered_features_map in Hf. apply in_map_iff in Hf as [w0 [E Hw0]].
    assert (w0 = w) as ->.
    { apply Hinj; [apply in_or_app; now left | apply in_or_app; now right |].
      rewrite (hash_ngram_window p seq V B N w0), (hash_ngram_window p seq' V B N w)
        by assumption.
      now rewrite E. }
    now apply (Hback seq N).
Qed.

Lemma permutation_changes_features_witness :
  NoDup [1; 2] /\ Permutation [1; 2] [2; 1] /\ [1; 2] <> [2; 1] /\
  (exists w, In w (get_ngrams [2; 1] 2) /\ ~ In w (get_ngrams [1; 2] 2)) /\
  valid_input lp64 [1; 2] 10 100 2 = true /\
  exists out out',
    augment_with_ngrams lp64 [1; 2] 10 100 2 = Ok out /\
    augment_with_ngrams lp64 [2; 1] 10 100 2 = Ok out' /\
    ~ (forall x, In x (skipn 2 out) <-> In x (skipn 2 out')).
Proof.
  assert (Hnd : NoDup [1; 2]).
  { repeat constructor; simpl; intuition discriminate. }
  assert (Hne : [1; 2] <> [2; 1]) by discriminate.
  destruct (permutation_changes_features lp64 [1; 2] [2; 1] 10 100 2
              Hnd (perm_swap 2 1 []) Hne) as (H1 & _ & H3).
  split; [exact Hnd|]. split; [apply perm_swap|]. split; [exact Hne|].
  split; [exact H1|]. split; [reflexivity|].
  apply H3; [reflexivity | lia |].
  intros w w' Hw Hw' E.
  change (In w [[1; 2]; [2; 1]]) in Hw. change (In w' [[1; 2]; [2; 1]]) in Hw'.
  destruct Hw as [<-|[<-|[]]], Hw' as [<-|[<-|[]]];
    try reflexivity; vm_compute in E; discriminate E.
Defined.

(** C9, a counterexample to the claim as stated: with 7 buckets the
    sequence 1, 2, 3 and its reversal have no window in common and still the
    same set of hashed feature IDs (13 and 16); with one bucket every window
    gets the same ID. *)
Lemma permutation_keeps_features_on_collision :
  valid_input lp64 [1; 2; 3] 10 7 2 = true /\
  NoDup [1; 2; 3] /\ Permutation [1; 2; 3] [3; 2; 1] /\
  get_ngrams [1; 2; 3] 2 = [[1; 2]; [2; 3]] /\
  get_ngrams [3; 2; 1] 2 = [[3; 2]; [2; 1]] /\
  augment_with_ngrams lp64 [1; 2; 3] 10 7 2 = Ok [1; 2; 3; 16; 13] /\
  augment_with_ngrams lp64 [3; 2; 1] 10 7 2 = Ok [3; 2; 1; 16; 13] /\
  (forall x, In x (skipn 3 [1; 2; 3; 16; 13]) <-> In x (skipn 3 [3; 2; 1; 16; 13])) /\
  augment_with_ngrams lp64 [1; 2; 3] 10 1 2 = Ok [1; 2; 3; 10; 10] /\
  augment_with_ngrams lp64 [3; 2; 1] 10 1 2 = Ok [3; 2; 1; 10; 10].
Proof.
  split; [reflexivity|].
  split; [repeat constructor; simpl; intuition discriminate|].
  split; [apply (Permutation_rev [1; 2; 3])|].
  split; [reflexivity|]. split; [reflexivity|].
  split; [vm_compute; reflexivity|]. split; [vm_compute; reflexivity|].
  split; [|split; vm_compute; reflexivity].
  intros x. simpl. tauto.
Qed.

(** * Further properties of the code *)

(** ** The n-grams of a sequence *)

Lemma get_ngrams_nonpositive (u : list Z) (n : Z) :
  n <= 0 -> get_ngrams u n = [].
Proof.
  intros Hn. unfold get_ngrams, range.
  replace (Z.to_nat (n - 0)) with 0%nat by lia. reflexivity.
Qed.

(** X1.  [get_ngrams(n)] returns [max(0, len - n + 1)] n-grams for n >= 1,
    and none for n <= 0, where [zip] gets no argument. *)
Theorem get_ngrams_count (u : list Z) (n : Z) :
  Z.of_nat (List.length (get_ngrams u n))
  = if n <=? 0 then 0 else Z.max 0 (Z.of_nat (List.length u) - n + 1).
Proof.
  destruct (n <=? 0) eqn:E.
  - apply Z.leb_le in E. now rewrite get_ngrams_nonpositive.
  - apply Z.leb_gt in E. rewrite get_ngrams_windows, windows_length by lia. lia.
Qed.

Lemma windows_factor (u w : list Z) (n : nat) :
  In w (windows u n) <->
  List.length w = n /\ exists l1 l2, u = l1 ++ w ++ l2.
Proof.
  split.
  - intros H. split; [now apply In_windows_length in H|].
    unfold windows in H. apply in_map_iff in H as [j [<- Hj]].
    exists (firstn j u), (skipn n (skipn j u)). unfold window.
    now rewrite (firstn_skipn n (skipn j u)), (firstn_skipn j u).
  - intros [Hl [l1 [l2 ->]]]. unfold windows.
    apply in_map_iff. exists (List.length l1). split.
    + unfold window. rewrite skipn_app, skipn_all, Nat.sub_diag. cbn [skipn app].
      rewrite <- Hl, firstn_app, Nat.sub_diag, firstn_all, firstn_O. apply app_nil_r.
    + apply in_seq. rewrite !length_app. lia.
Qed.

(** X2.  For n >= 1 the n-grams are exactly the contiguous parts of length
    n of the sequence: each n-gram has n tokens and stands somewhere in the
    sequence, and every part of n consecutive tokens is returned. *)
Theorem get_ngrams_contiguous (u w : list Z) (n : Z) :
  1 <= n ->
  (In w (get_ngrams u n) <->
   List.length w = Z.to_nat n /\ exists l1 l2, u = l1 ++ w ++ l2).
Proof.
  intros Hn. rewrite get_ngrams_windows by exact Hn. apply windows_factor.
Qed.

Lemma get_ngrams_contiguous_witness :
  1 <= 2 /\
  (In [2; 3] (get_ngrams [1; 2; 3; 4] 2) <->
   List.length [2; 3] = Z.to_nat 2 /\ exists l1 l2, [1; 2; 3; 4] = l1 ++ [2; 3] ++ l2).
Proof.
  split; [lia|]. apply (get_ngrams_contiguous [1; 2; 3; 4] [2; 3] 2). lia.
Defined.

(** X3.  Consecutive n-grams overlap: the n-gram at position j without its
    first token is the n-gram at position j + 1 without its last token. *)
Theorem get_ngrams_overlap (u : list Z) (n : Z) (j : nat) :
  1 <= n -> (S j < List.length (get_ngrams u n))%nat ->
  tl (nth j (get_ngrams u n) []) = removelast (nth (S j) (get_ngrams u n) []).
Proof.
  intros Hn. rewrite get_ngrams_windows by exact Hn.
  destruct (Z.to_nat n) as [|m] eqn:E; [lia|]. clear E Hn n.
  rewrite windows_length. intros Hj.
  rewrite !nth_window by lia. unfold window.
  rewrite removelast_firstn by (rewrite length_skipn; lia).
  rewrite <- (nth_cons_skipn 0 u j) by lia. reflexivity.
Qed.

Lemma get_ngrams_overlap_witness :
  1 <= 3 /\ (2 < List.length (get_ngrams [1; 2; 3; 4; 5]%Z 3%Z))%nat /\
  tl [2; 3; 4] = removelast [3; 4; 5].
Proof.
  split; [lia|]. split; [simpl; lia|].
  apply (get_ngrams_overlap [1; 2; 3; 4; 5] 3 1); [lia | simpl; lia].
Defined.

(** X4.  Reversing the sequence reverses its n-grams: for n >= 1, [w] is
    an n-gram of the reversed sequence exactly when [w] reversed is an
    n-gram of the sequence. *)
Theorem get_ngrams_reverse (u w : list Z) (n : Z) :
  1 <= n ->
  (In w (get_ngrams (rev u) n) <-> In (rev w) (get_ngrams u n)).
Proof.
  intros Hn. rewrite !get_ngrams_windows by exact Hn.
  rewrite !windows_factor, length_rev. split.
  - intros [Hl [l1 [l2 E]]]. split; [exact Hl|].
    exists (rev l2), (rev l1). rewrite <- (rev_involutive u), E.
    rewrite !rev_app_distr. now rewrite app_assoc.
  - intros [Hl [l1 [l2 E]]]. split; [exact Hl|].
    exists (rev l2), (rev l1). rewrite E.
    rewrite !rev_app_distr, rev_involutive. now rewrite app_assoc.
Qed.

Lemma get_ngrams_reverse_witness :
  1 <= 2 /\
  (In [3; 2] (get_ngrams (rev [1; 2; 3]) 2) <-> In (rev [3; 2]) (get_ngrams [1; 2; 3] 2)).
Proof.
  split; [lia|]. apply (get_ngrams_reverse [1; 2; 3] [3; 2] 2). lia.
Defined.

(** ** The hash of an n-gram *)

(** X5.  A negative bucket count is accepted: the modulo then takes the
    sign of the divisor, and the feature ID lies in (V + B, V], at or below
    the vocabulary size instead of above it. *)
Theorem hash_ngram_negative_buckets (p : platform) (V B : Z) (w : list Z) :
  forallb (fits_ulong p) w = true -> B < 0 ->
  exists id, hash_ngram p V B w = Ok id /\ V + B < id <= V.
Proof.
  intros Hw HB. exists (spec_feature_id p V B w). split.
  - rewrite hash_ngram_spec, Hw.
    destruct (B =? 0) eqn:E; [apply Z.eqb_eq in E; lia | reflexivity].
  - unfold spec_feature_id.
    pose proof (Z.mod_neg_bound
      (SHA256.be_value (SHA256.digest (List.concat (map (item_bytes p) w)))) B HB).
    lia.
Qed.

Lemma hash_ngram_negative_buckets_witness :
  forallb (fits_ulong lp64) [1; 2] = true /\ -7 < 0 /\
  exists id, hash_ngram lp64 10 (-7) [1; 2] = Ok id /\ 10 + -7 < id <= 10.
Proof.
  split; [reflexivity|]. split; [lia|].
  apply (hash_ngram_negative_buckets lp64 10 (-7) [1; 2]); [reflexivity | lia].
Defined.

(** X6.  The bytes hashed for a non-empty n-gram differ between a platform
    with a 4-byte and one with an 8-byte unsigned long, whatever their byte
    orders; a token of 2^32 or more is accepted by the second and overflows
    on the first. *)
Theorem hash_input_depends_on_platform (o1 o2 : byteorder) (w : list Z) :
  w <> [] ->
  tobytes (Platform Long32 o1) w <> tobytes (Platform Long64 o2) w /\
  (forall t, In t w -> 2 ^ 32 <= t < 2 ^ 64 ->
     array_L (Platform Long32 o1) w = Raise OverflowError /\
     (forallb (fun v => 0 <=? v) w = true ->
      forallb (fun v => v <? 2 ^ 64) w = true ->
      array_L (Platform Long64 o2) w = Ok w)).
Proof.
  intros Hw. split.
  - intros E. apply (f_equal (@List.length byte)) in E.
    rewrite !tobytes_length in E. cbn [itemsize ulong] in E.
    destruct w; [contradiction | simpl in E; lia].
  - intros t Ht Hr. split.
    + rewrite array_L_spec.
      destruct (forallb (fits_ulong (Platform Long32 o1)) w) eqn:E; [|reflexivity].
      rewrite forallb_forall in E. specialize (E t Ht).
      apply fits_ulong_range in E. cbn [itemsize ulong] in E.
      change (2 ^ (8 * Z.of_nat 4)) with (2 ^ 32) in E. lia.
    + intros H0 H64. rewrite array_L_spec.
      replace (forallb (fits_ulong (Platform Long64 o2)) w) with true; [reflexivity|].
      symmetry. rewrite forallb_forall in *. intros v Hv.
      specialize (H0 v Hv). specialize (H64 v Hv).
      apply fits_ulong_range. cbn [itemsize ulong].
      change (2 ^ (8 * Z.of_nat 8)) with (2 ^ 64).
      apply Z.leb_le in H0. apply Z.ltb_lt in H64. lia.
Qed.

Lemma hash_input_depends_on_platform_witness :
  [2 ^ 32; 1] <> [] /\
  tobytes llp64 [2 ^ 32; 1] <> tobytes lp64 [2 ^ 32; 1] /\
  array_L llp64 [2 ^ 32; 1] = Raise OverflowError /\
  array_L lp64 [2 ^ 32; 1] = Ok [2 ^ 32; 1].
Proof.
  assert (Hne : [2 ^ 32; 1] <> []) by discriminate.
  destruct (hash_input_depends_on_platform LittleEndian LittleEndian [2 ^ 32; 1] Hne)
    as [H1 H2].
  split; [exact Hne|]. split; [exact H1|].
  destruct (H2 (2 ^ 32) (or_introl eq_refl) ltac:(lia)) as [H3 H4].
  split; [exact H3 | exact (H4 eq_refl eq_refl)].
Defined.

(** ** How the output depends on the arguments *)

Lemma mapM_app {A B} (f : A -> result B) (l1 l2 : list A) :
  mapM f (l1 ++ l2)
  = (ys1 <- mapM f l1 ;; ys2 <- mapM f l2 ;; Ok (ys1 ++ ys2)).
Proof.
  induction l1 as [|x l1 IH]; cbn [app mapM bind].
  - destruct (mapM f l2); reflexivity.
  - destruct (f x) as [y|e]; cbn [bind]; [|reflexivity].
    rewrite IH. destruct (mapM f l1) as [ys1|e]; cbn [bind]; [|reflexivity].
    destruct (mapM f l2); reflexivity.
Qed.

Lemma range_single (n : Z) : range n (n + 1) = [n].
Proof.
  unfold range. replace (Z.to_nat (n + 1 - n)) with 1%nat by lia.
  cbn [seq map]. f_equal. lia.
Qed.

(** X7.  Raising the order by one only appends: for N >= 1 the output for
    order N + 1 is the output for order N followed by the hashes of the
    (N+1)-grams, and a call that fails for order N fails with the same
    exception for order N + 1. *)
Theorem augment_order_step (p : platform) (u : list Z) (V B N : Z) :
  1 <= N ->
  (forall out',
     augment_with_ngrams p u V B (N + 1) = Ok out' ->
     exists out extra,
       augment_with_ngrams p u V B N = Ok out /\
       mapM (hash_ngram p V B) (get_ngrams u (N + 1)) = Ok extra /\
       out' = out ++ extra) /\
  (forall e,
     augment_with_ngrams p u V B N = Raise e ->
     augment_with_ngrams p u V B (N + 1) = Raise e).
Proof.
  intros HN. unfold augment_with_ngrams.
  rewrite (range_split 2 (N + 1) (N + 1 + 1)) by lia.
  rewrite range_single, flat_map_app, mapM_app. cbn [flat_map]. rewrite app_nil_r.
  destruct (mapM (hash_ngram p V B) (flat_map (get_ngrams u) (range 2 (N + 1))))
    as [ys|e0]; cbn [bind].
  - split; [|discriminate]. intros out' H.
    destruct (mapM (hash_ngram p V B) (get_ngrams u (N + 1))) as [extra|e1];
      cbn [bind] in H; [|discriminate].
    injection H as <-. exists (u ++ ys), extra.
    repeat split. now rewrite app_assoc.
  - split; [discriminate|]. intros e H. exact H.
Qed.

Lemma augment_order_step_witness :
  1 <= 2 /\
  exists out extra,
    augment_with_ngrams lp64 [1; 2; 3; 4] 10 100 2 = Ok out /\
    mapM (hash_ngram lp64 10 100) (get_ngrams [1; 2; 3; 4] (2 + 1)) = Ok extra /\
    [1; 2; 3; 4; 31; 11; 76; 93; 52] = out ++ extra.
Proof.
  assert (E3 : augment_with_ngrams lp64 [1; 2; 3; 4] 10 100 (2 + 1)
               = Ok [1; 2; 3; 4; 31; 11; 76; 93; 52])
    by (vm_compute; reflexivity).
  split; [lia|].
  exact (proj1 (augment_order_step lp64 [1; 2; 3; 4] 10 100 2 ltac:(lia)) _ E3).
Defined.

Lemma no_ngram_beyond_length (u : list Z) (lo hi : Z) :
  Z.of_nat (List.length u) < lo -> 1 <= lo ->
  flat_map (get_ngrams u) (range lo hi) = [].
Proof.
  intros Hlo H1. rewrite flat_map_concat_map. apply concat_map_nil.
  intros n Hn. apply range_In in Hn. apply length_zero_iff_nil.
  rewrite get_ngrams_windows, windows_length by lia. lia.
Qed.

(** X8.  An order beyond the length of the sequence adds nothing: for every
    N >= len the call gives what it gives for N = len, the same output or
    the same exception. *)
Theorem augment_order_saturates (p : platform) (u : list Z) (V B N : Z) :
  Z.of_nat (List.length u) <= N ->
  augment_with_ngrams p u V B N
  = augment_with_ngrams p u V B (Z.of_nat (List.length u)).
Proof.
  intros HN. unfold augment_with_ngrams.
  replace (flat_map (get_ngrams u) (range 2 (N + 1)))
    with (flat_map (get_ngrams u) (range 2 (Z.of_nat (List.length u) + 1)));
    [reflexivity|].
  destruct (Z.le_gt_cases 1 (Z.of_nat (List.length u))) as [H1|H0].
  - rewrite (range_split 2 (Z.of_nat (List.length u) + 1) (N + 1)) by lia.
    rewrite flat_map_app,
      (no_ngram_beyond_length u (Z.of_nat (List.length u) + 1) (N + 1)) by lia.
    now rewrite app_nil_r.
  - rewrite !no_window by (right; lia). reflexivity.
Qed.

Lemma augment_order_saturates_witness :
  3 <= 50 /\
  augment_with_ngrams lp64 [1; 2; 3] 10 100 50
  = augment_with_ngrams lp64 [1; 2; 3] 10 100 3.
Proof.
  split; [lia|]. apply (augment_order_saturates lp64 [1; 2; 3] 10 100 50). simpl. lia.
Defined.

Lemma spec_feature_id_shift (p : platform) (V V' B : Z) (w : list Z) :
  spec_feature_id p V' B w = spec_feature_id p V B w + (V' - V).
Proof. unfold spec_feature_id. lia. Qed.

(** X9.  The vocabulary size is only an offset of the hashed features: with
    another vocabulary size V' the call fails with the same exception, or
    returns the same sequence followed by the same hashed features shifted
    by V' - V. *)
Theorem augment_vocab_shift (p : platform) (u : list Z) (V V' B N : Z) :
  (forall out,
     augment_with_ngrams p u V B N = Ok out ->
     augment_with_ngrams p u V' B N
     = Ok (firstn (List.length u) out
           ++ map (fun id => id + (V' - V)) (skipn (List.length u) out))) /\
  (forall e,
     augment_with_ngrams p u V B N = Raise e ->
     augment_with_ngrams p u V' B N = Raise e).
Proof.
  rewrite (augment_cases p u V), (augment_cases p u V').
  destruct ((N <? 2) || (Nat.ltb (List.length u) 2)).
  { split; [|discriminate]. intros out [= <-].
    now rewrite firstn_all, skipn_all, app_nil_r. }
  destruct (negb (forallb (fits_ulong p) (firstn 2 u))).
  { split; [discriminate | auto]. }
  destruct (B =? 0).
  { split; [discriminate | auto]. }
  destruct (forallb (fits_ulong p) u).
  - split; [|discriminate]. intros out [= <-]. do 2 f_equal.
    + rewrite firstn_app, Nat.sub_diag, firstn_all, firstn_O. now rewrite app_nil_r.
    + rewrite skipn_app, Nat.sub_diag, skipn_all. cbn [skipn app].
      rewrite !ordered_features_map, map_map. apply map_ext.
      intros w. apply spec_feature_id_shift.
  - split; [discriminate | auto].
Qed.

Lemma augment_vocab_shift_witness :
  augment_with_ngrams lp64 [1; 2; 3] 10 100 2 = Ok [1; 2; 3; 31; 11] /\
  augment_with_ngrams lp64 [1; 2; 3] 1000 100 2 = Ok [1; 2; 3; 1021; 1001].
Proof.
  assert (E : augment_with_ngrams lp64 [1; 2; 3] 10 100 2 = Ok [1; 2; 3; 31; 11])
    by (vm_compute; reflexivity).
  split; [exact E|].
  exact (proj1 (augment_vocab_shift lp64 [1; 2; 3] 10 1000 100 2) _ E).
Defined.

(** ** Bigrams of a concatenation *)

Lemma windows2_cons (x : Z) (l : list Z) :
  windows (x :: l) 2
  = match l with
    | [] => []
    | y :: _ => [x; y] :: windows l 2
    end.
Proof.
  destruct l as [|y l]; [reflexivity|]. unfold windows.
  replace (List.length (x :: y :: l) + 1 - 2)%nat with (S (List.length l))
    by (simpl; lia).
  replace (List.length (y :: l) + 1 - 2)%nat with (List.length l) by (simpl; lia).
  cbn [seq map]. rewrite <- seq_shift, map_map. reflexivity.
Qed.

Lemma windows2_app (l1 l2 : list Z) (a b : Z) :
  windows (l1 ++ a :: b :: l2) 2
  = windows (l1 ++ [a]) 2 ++ [a; b] :: windows (b :: l2) 2.
Proof.
  induction l1 as [|x l1 IH].
  - cbn [app]. now rewrite windows2_cons.
  - cbn [app]. rewrite (windows2_cons x (l1 ++ a :: b :: l2)),
      (windows2_cons x (l1 ++ [a])), IH.
    destruct l1; reflexivity.
Qed.

(** X10.  With the default order 2 the hashed features of a concatenation
    are those of the left part, the hash of the bigram that bridges the two
    parts, and those of the right part: when the call returns on
    [l1 ++ [a]] followed by [b :: l2], it returns on both parts and on the
    bridging bigram, and the three results make up its output. *)
Theorem augment_bigrams_concat (p : platform) (l1 l2 : list Z) (a b V B : Z)
    (out : list Z) :
  augment_with_ngrams p ((l1 ++ [a]) ++ b :: l2) V B 2 = Ok out ->
  exists h1 h2 hab,
    augment_with_ngrams p (l1 ++ [a]) V B 2 = Ok ((l1 ++ [a]) ++ h1) /\
    augment_with_ngrams p (b :: l2) V B 2 = Ok ((b :: l2) ++ h2) /\
    hash_ngram p V B [a; b] = Ok hab /\
    out = ((l1 ++ [a]) ++ b :: l2) ++ h1 ++ hab :: h2.
Proof.
  unfold augment_with_ngrams. change (2 + 1) with 3.
  rewrite (range_cons 2 3) by lia.
  replace (range (2 + 1) 3) with (@nil Z) by reflexivity.
  cbn [flat_map]. rewrite !app_nil_r.
  rewrite !get_ngrams_windows by lia. change (Z.to_nat 2) with 2%nat.
  rewrite <- app_assoc. cbn [app]. rewrite windows2_app, mapM_app.
  cbn [mapM].
  destruct (mapM (hash_ngram p V B) (windows (l1 ++ [a]) 2)) as [h1|e];
    cbn [bind]; [|discriminate].
  destruct (hash_ngram p V B [a; b]) as [hab|e]; cbn [bind]; [|discriminate].
  destruct (mapM (hash_ngram p V B) (windows (b :: l2) 2)) as [h2|e];
    cbn [bind]; [|discriminate].
  intros [= <-]. exists h1, h2, hab. repeat split.
Qed.

Lemma augment_bigrams_concat_witness :
  augment_with_ngrams lp64 (([1] ++ [2]) ++ 3 :: [4]) 10 100 2
  = Ok [1; 2; 3; 4; 31; 11; 76] /\
  exists h1 h2 hab,
    augment_with_ngrams lp64 ([1] ++ [2]) 10 100 2 = Ok (([1] ++ [2]) ++ h1) /\
    augment_with_ngrams lp64 (3 :: [4]) 10 100 2 = Ok ((3 :: [4]) ++ h2) /\
    hash_ngram lp64 10 100 [2; 3] = Ok hab /\
    [1; 2; 3; 4; 31; 11; 76] = (([1] ++ [2]) ++ 3 :: [4]) ++ h1 ++ hab :: h2.
Proof.
  assert (E : augment_with_ngrams lp64 (([1] ++ [2]) ++ 3 :: [4]) 10 100 2
              = Ok [1; 2; 3; 4; 31; 11; 76])
    by (vm_compute; reflexivity).
  split; [exact E|].
  exact (augment_bigrams_concat lp64 [1] [4] 2 3 10 100 _ E).
Defined.

(** ** Preprocessing the data set *)

Lemma augment_cases_nonzero (p : platform) (u : list Z) (V B N : Z) :
  B <> 0 ->
  augment_with_ngrams p u V B N
  = if overflows p N u then Raise OverflowError
    else Ok (u ++ ordered_features p u V B N).
Proof.
  intros HB. rewrite augment_cases. unfold overflows.
  destruct (N <? 2) eqn:EN; [apply Z.ltb_lt in EN | apply Z.ltb_ge in EN].
  { replace (2 <=? N) with false by (symmetry; apply Z.leb_gt; lia).
    cbn [orb andb]. rewrite ordered_features_map, no_window by (left; lia).
    now rewrite app_nil_r. }
  replace (2 <=? N) with true by (symmetry; apply Z.leb_le; lia).
  destruct (Nat.ltb (List.length u) 2) eqn:Eu;
    [apply Nat.ltb_lt in Eu | apply Nat.ltb_ge in Eu]; cbn [orb andb].
  { replace (2 <=? Z.of_nat (List.length u)) with false
      by (symmetry; apply Z.leb_gt; lia).
    cbn [andb]. rewrite ordered_features_map, no_window by (right; lia).
    now rewrite app_nil_r. }
  replace (2 <=? Z.of_nat (List.length u)) with true
    by (symmetry; apply Z.leb_le; lia).
  cbn [andb].
  destruct (B =? 0) eqn:EB; [apply Z.eqb_eq in EB; contradiction|].
  destruct (forallb (fits_ulong p) u) eqn:Eall; cbn [negb].
  - replace (forallb (fits_ulong p) (firstn 2 u)) with true; [reflexivity|].
    symmetry. rewrite forallb_forall in *. intros t Ht. apply Eall.
    rewrite <- (firstn_skipn 2 u). apply in_or_app. now left.
  - destruct (forallb (fits_ulong p) (firstn 2 u)); reflexivity.
Qed.

Lemma mapM_cases {A B} (f : A -> result B) (bad : A -> bool) (g : A -> B)
    (e : exn) (l : list A) :
  (forall x, f x = if bad x then Raise e else Ok (g x)) ->
  mapM f l = if existsb bad l then Raise e else Ok (map g l).
Proof.
  intros Hf. induction l as [|x l IH]; [reflexivity|].
  cbn [mapM existsb map]. rewrite Hf.
  destruct (bad x); cbn [bind orb]; [reflexivity|].
  rewrite IH. destruct (existsb bad l); reflexivity.
Qed.

Lemma vocabulary_fits (p : platform) (x : list Z) :
  (forall t, In t x -> 0 <= t < VOCAB_SIZE) -> forallb (fits_ulong p) x = true.
Proof.
  intros H. apply word32_fits. apply forallb_forall. intros t Ht.
  specialize (H t Ht). unfold VOCAB_SIZE in H.
  apply andb_true_iff. split; [apply Z.leb_le | apply Z.ltb_lt]; lia.
Qed.

Lemma Forall2_map_r {A B} (R : A -> B -> Prop) (g : A -> B) (l : list A) :
  (forall x, In x l -> R x (g x)) -> Forall2 R l (map g l).
Proof.
  induction l as [|x l IH]; intros H; cbn [map]; constructor.
  - apply H. now left.
  - apply IH. intros y Hy. apply H. now right.
Qed.

Lemma overflows_spec (p : platform) (n : Z) (x : list Z) :
  overflows p n x = true <->
  2 <= n /\ (2 <= List.length x)%nat /\
  exists t, In t x /\ (t < 0 \/ ULONG_MAX p < t).
Proof.
  unfold overflows. rewrite !andb_true_iff, !Z.leb_le, negb_true_iff. split.
  - intros [[Hn Hl] Hf]. split; [exact Hn|]. split; [lia|].
    apply forallb_false in Hf as [t [Ht Hf]]. exists t. split; [exact Ht|].
    unfold fits_ulong in Hf. apply andb_false_iff in Hf as [Hf|Hf];
      apply Z.leb_gt in Hf; lia.
  - intros [Hn [Hl [t [Ht Hbad]]]]. split; [split; lia|].
    destruct (forallb (fits_ulong p) x) eqn:Ef; [|reflexivity].
    rewrite forallb_forall in Ef. specialize (Ef t Ht).
    unfold fits_ulong in Ef. apply andb_true_iff in Ef as [Ef1 Ef2].
    apply Z.leb_le in Ef1, Ef2. lia.
Qed.

Section PreprocessingProperties.

Variable p : platform.
Variable ndarray : Type.
Variable np_error : Type.
Variable np_array : list (list Z) -> ndarray + np_error.

(** What each comprehension of the preprocessing step gives. *)
Lemma comprehension_cases (n : Z) (xs : list (list Z)) :
  mapM (fun x => augment_with_ngrams p x VOCAB_SIZE N_BUCKETS n) xs
  = if existsb (overflows p n) xs then Raise OverflowError
    else Ok (map (fun x => x ++ ordered_features p x VOCAB_SIZE N_BUCKETS n) xs).
Proof.
  apply mapM_cases. intros x. apply augment_cases_nonzero. discriminate.
Qed.

(** X12.  On data whose tokens are vocabulary indices in
    [0, VOCAB_SIZE), no hashing fails, for every order and on every
    platform: both comprehensions return, each example gives its augmented
    sequence, in the same order, and every feature ID handed to [np.array]
    is a valid index into the classifier's embedding table of
    [VOCAB_SIZE + N_BUCKETS] rows.  The outcome is then that of the two
    [np.array] calls, on the training list first, and when both return the
    labels are returned untouched. *)
Theorem preprocess_conformant_data (d : imdb) (n : Z) :
  (forall x, In x (X_train d ++ X_test d) ->
   forall t, In t x -> 0 <= t < VOCAB_SIZE) ->
  exists xs_train xs_test,
    Forall2 (fun x x' => augment_with_ngrams p x VOCAB_SIZE N_BUCKETS n = Ok x')
            (X_train d) xs_train /\
    Forall2 (fun x x' => augment_with_ngrams p x VOCAB_SIZE N_BUCKETS n = Ok x')
            (X_test d) xs_test /\
    (forall x', In x' (xs_train ++ xs_test) ->
     forall id, In id x' -> 0 <= id < classifier_vocab_size) /\
    load_and_preprocess_imdb_data p np_array d (Some n)
    = match np_array xs_train with
      | inr e => inr (Numpy e)
      | inl a_train =>
          match np_array xs_test with
          | inr e => inr (Numpy e)
          | inl a_test =>
              inl (Preprocessed (AsArray a_train) (y_train d)
                                (AsArray a_test) (y_test d))
          end
      end.
Proof.
  intros Hd.
  assert (Hfit : forall x, In x (X_train d ++ X_test d) ->
                 forallb (fits_ulong p) x = true).
  { intros x Hx. apply vocabulary_fits. now apply Hd. }
  assert (Hno : forall l, (forall x, In x l -> In x (X_train d ++ X_test d)) ->
                existsb (overflows p n) l = false).
  { intros l Hl. destruct (existsb (overflows p n) l) eqn:E; [|reflexivity].
    apply existsb_exists in E as [x [Hx E]]. unfold overflows in E.
    rewrite (Hfit x (Hl x Hx)) in E. cbn [negb] in E.
    now rewrite andb_false_r in E. }
  assert (Haug : forall x, In x (X_train d ++ X_test d) ->
    augment_with_ngrams p x VOCAB_SIZE N_BUCKETS n
    = Ok (x ++ ordered_features p x VOCAB_SIZE N_BUCKETS n)).
  { intros x Hx. apply augment_ok; [now apply Hfit | discriminate]. }
  exists (map (fun x => x ++ ordered_features p x VOCAB_SIZE N_BUCKETS n) (X_train d)),
         (map (fun x => x ++ ordered_features p x VOCAB_SIZE N_BUCKETS n) (X_test d)).
  split; [apply Forall2_map_r; intros x Hx; apply Haug, in_or_app; now left|].
  split; [apply Forall2_map_r; intros x Hx; apply Haug, in_or_app; now right|].
  split.
  - intros x' Hx' id Hid. rewrite <- map_app in Hx'.
    apply in_map_iff in Hx' as [x [<- Hx]].
    apply in_app_or in Hid as [Hid|Hid].
    + specialize (Hd x Hx id Hid). unfold classifier_vocab_size, N_BUCKETS in *. lia.
    + apply (ordered_features_range p x VOCAB_SIZE N_BUCKETS n id) in Hid;
        [|reflexivity].
      unfold classifier_vocab_size, VOCAB_SIZE in *. lia.
  - unfold load_and_preprocess_imdb_data. rewrite !comprehension_cases.
    rewrite (Hno (X_train d)) by (intros x Hx; apply in_or_app; now left).
    rewrite (Hno (X_test d)) by (intros x Hx; apply in_or_app; now right).
    reflexivity.
Qed.

(** X13.  A training example that overflows makes the preprocessing step
    raise OverflowError before [np.array] is called: that is, when the
    order is at least 2 and the example has at least two tokens, one of
    them negative or above ULONG_MAX.  A test example does the same once
    [np.array] has returned for the training list.  Conversely, when the
    hashing fails, the exception is OverflowError (never a division by
    zero, the bucket count being the non-zero constant N_BUCKETS), the
    order is at least 2 and some example overflows. *)
Theorem preprocess_hashing_failure (d : imdb) (n : Z) :
  (existsb (overflows p n) (X_train d) = true ->
   load_and_preprocess_imdb_data p np_array d (Some n) = inr (Hashing OverflowError)) /\
  (forall xs_train a_train,
     mapM (fun x => augment_with_ngrams p x VOCAB_SIZE N_BUCKETS n) (X_train d)
     = Ok xs_train ->
     np_array xs_train = inl a_train ->
     existsb (overflows p n) (X_test d) = true ->
     load_and_preprocess_imdb_data p np_array d (Some n) = inr (Hashing OverflowError)) /\
  (forall e,
     load_and_preprocess_imdb_data p np_array d (Some n) = inr (Hashing e) ->
     e = OverflowError /\ 2 <= n /\
     exists x, In x (X_train d ++ X_test d) /\ (2 <= List.length x)%nat /\
               exists t, In t x /\ (t < 0 \/ ULONG_MAX p < t)) /\
  (forall x, overflows p n x = true <->
     2 <= n /\ (2 <= List.length x)%nat /\
     exists t, In t x /\ (t < 0 \/ ULONG_MAX p < t)).
Proof.
  unfold load_and_preprocess_imdb_data. rewrite !comprehension_cases.
  split; [|split; [|split]].
  - intros ->. reflexivity.
  - intros xs_train a_train Htr Hnp Hte.
    destruct (existsb (overflows p n) (X_train d)); [discriminate|].
    injection Htr as <-. rewrite Hnp, Hte. reflexivity.
  - intros e H.
    assert (Hbad : e = OverflowError /\
                   existsb (overflows p n) (X_train d ++ X_test d) = true).
    { rewrite existsb_app.
      destruct (existsb (overflows p n) (X_train d)); [now injection H as <-|].
      destruct (np_array _); [|discriminate].
      destruct (existsb (overflows p n) (X_test d)); [now injection H as <-|].
      destruct (np_array _); discriminate. }
    destruct Hbad as [-> Hex]. split; [reflexivity|].
    apply existsb_exists in Hex as [x [Hx Ho]].
    apply overflows_spec in Ho as (Hn & Hl & Ht).
    split; [exact Hn|]. exists x. auto.
  - intros x. apply overflows_spec.
Qed.

End PreprocessingProperties.

Lemma preprocess_conformant_data_witness :
  (forall x, In x ([[1; 2; 3]] ++ [[99999; 0]]) ->
   forall t, In t x -> 0 <= t < VOCAB_SIZE) /\
  exists xs_train xs_test,
    Forall2 (fun x x' => augment_with_ngrams lp64 x VOCAB_SIZE N_BUCKETS N_GRAM = Ok x')
            [[1; 2; 3]] xs_train /\
    Forall2 (fun x x' => augment_with_ngrams lp64 x VOCAB_SIZE N_BUCKETS N_GRAM = Ok x')
            [[99999; 0]] xs_test /\
    load_and_preprocess_imdb_data lp64 (fun xs => @inl (list (list Z)) unit xs)
      (Imdb [[1; 2; 3]] [1] [[99999; 0]] [0]) (Some N_GRAM)
    = inl (Preprocessed (AsArray xs_train) [1] (AsArray xs_test) [0]).
Proof.
  assert (H : forall x, In x ([[1; 2; 3]] ++ [[99999; 0]]) ->
              forall t, In t x -> 0 <= t < VOCAB_SIZE).
  { unfold VOCAB_SIZE. intros x [<-|[<-|[]]] t Ht; simpl in Ht; lia. }
  split; [exact H|].
  destruct (preprocess_conformant_data lp64 (list (list Z)) unit
              (fun xs => inl xs) (Imdb [[1; 2; 3]] [1] [[99999; 0]] [0]) N_GRAM H)
    as (xs_train & xs_test & H1 & H2 & _ & H4).
  exists xs_train, xs_test. auto.
Defined.

(** ** Locality *)

Lemma window_left_of (l1 l2 : list Z) (a : Z) (n j : nat) :
  (j + n <= List.length l1)%nat ->
  window (l1 ++ a :: l2) n j = window l1 n j.
Proof.
  intros H. unfold window.
  rewrite skipn_app. replace (j - List.length l1)%nat with 0%nat by lia.
  cbn [skipn]. rewrite firstn_app, length_skipn.
  replace (n - (List.length l1 - j))%nat with 0%nat by lia.
  cbn [firstn]. apply app_nil_r.
Qed.

Lemma window_right_of (l1 l2 : list Z) (a : Z) (n j : nat) :
  (List.length l1 < j)%nat ->
  window (l1 ++ a :: l2) n j = window l2 n (j - List.length l1 - 1).
Proof.
  intros H. unfold window.
  remember (j - List.length l1 - 1)%nat as k eqn:Ek.
  assert (Ej : j = (List.length l1 + S k)%nat) by lia. subst j.
  rewrite skipn_app, skipn_all2 by lia. cbn [app].
  replace (List.length l1 + S k - List.length l1)%nat with (S k) by lia.
  reflexivity.
Qed.

(** X14.  Replacing one token changes only the features of the n-grams
    that contain it: when the call returns for a sequence and for the
    sequence with the token at position [len l1] replaced, the feature of
    every n-gram that ends before that position or starts after it is the
    same in both outputs. *)
Theorem augment_token_locality (p : platform) (l1 l2 : list Z) (a a' V B N n j : Z)
    (out out' : list Z) :
  augment_with_ngrams p (l1 ++ a :: l2) V B N = Ok out ->
  augment_with_ngrams p (l1 ++ a' :: l2) V B N = Ok out' ->
  2 <= n <= N -> 0 <= j <= Z.of_nat (List.length (l1 ++ a :: l2)) - n ->
  j + n <= Z.of_nat (List.length l1) \/ Z.of_nat (List.length l1) < j ->
  nth (Z.to_nat (feature_index (Z.of_nat (List.length (l1 ++ a :: l2))) n j)) out 0
  = nth (Z.to_nat (feature_index (Z.of_nat (List.length (l1 ++ a :: l2))) n j)) out' 0.
Proof.
  intros H H' Hn Hj Hpos.
  assert (Hlen : List.length (l1 ++ a' :: l2) = List.length (l1 ++ a :: l2))
    by (rewrite !length_app; reflexivity).
  rewrite (nth_augment p (l1 ++ a :: l2) V B N n j out H Hn Hj).
  rewrite <- Hlen.
  rewrite (nth_augment p (l1 ++ a' :: l2) V B N n j out' H' Hn)
    by (rewrite Hlen; exact Hj).
  f_equal. destruct Hpos as [Hl|Hr].
  - rewrite !window_left_of by lia. reflexivity.
  - rewrite !window_right_of by lia. reflexivity.
Qed.

Lemma augment_token_locality_witness :
  augment_with_ngrams lp64 ([1; 2] ++ 3 :: [4]) 10 100 2 = Ok [1; 2; 3; 4; 31; 11; 76] /\
  augment_with_ngrams lp64 ([1; 2] ++ 9 :: [4]) 10 100 2 = Ok [1; 2; 9; 4; 31; 51; 29] /\
  nth (Z.to_nat (feature_index 4 2 0)) [1; 2; 3; 4; 31; 11; 76] 0
  = nth (Z.to_nat (feature_index 4 2 0)) [1; 2; 9; 4; 31; 51; 29] 0.
Proof.
  assert (E : augment_with_ngrams lp64 ([1; 2] ++ 3 :: [4]) 10 100 2
              = Ok [1; 2; 3; 4; 31; 11; 76]) by (vm_compute; reflexivity).
  assert (E' : augment_with_ngrams lp64 ([1; 2] ++ 9 :: [4]) 10 100 2
               = Ok [1; 2; 9; 4; 31; 51; 29]) by (vm_compute; reflexivity).
  split; [exact E|]. split; [exact E'|].
  apply (augment_token_locality lp64 [1; 2] [4] 3 9 10 100 2 2 0 _ _ E E');
    simpl; lia.
Defined.
